(** * LingConvert: the ffmpeg process wrapper, embedded in Rocq

    A shallow embedding of the Go packages [media/ffmpeg] and
    [media/ffprobe] of LingByte/LingConvert:

    - the progress decoder ([FFmpegProgress], [applyKV],
      [parseProgressLine], [scanProgress]);
    - the argument builder ([FFmpegCommand] and its fluent mutators), over
      an explicit store of slice backing arrays;
    - the readiness check ([ensureReady]) of both tools, once as a
      state-passing function and once as an interleaving of goroutines;
    - the outcome mapping of [RunWithProgress].

    Go strings are byte strings ([string]); Go's [int] is taken at 64 bits
    and carried in [Z]; maps and slices live in explicit stores so that
    aliasing is visible. *)

From Stdlib Require Import ZArith Ascii String DecimalString Lia Bool.
From stdpp Require Import base option list gmap strings.

Local Open Scope string_scope.
Local Open Scope Z_scope.

(** ** The Go standard library, as far as the packages use it *)

Module GoStrings.

Definition byte_of (n : N) : ascii := ascii_of_N n.

(** [asciiSpace] of package [strings]: tab, LF, VT, FF, CR and space. *)
Definition asciiSpace (c : ascii) : bool :=
  let n := N_of_ascii c in
  ((n =? 9) || (n =? 10) || (n =? 11) || (n =? 12) || (n =? 13) || (n =? 32))%N.

(** The two-byte UTF-8 encodings of white space: U+0085 and U+00A0. *)
Definition space2 (a b : ascii) : bool :=
  ((N_of_ascii a =? 194) && ((N_of_ascii b =? 133) || (N_of_ascii b =? 160)))%N.

(** The three-byte UTF-8 encodings of white space: U+1680, U+2000 to
    U+200A, U+2028, U+2029, U+202F, U+205F and U+3000. *)
Definition space3 (a b c : ascii) : bool :=
  let x := N_of_ascii a in
  let y := N_of_ascii b in
  let z := N_of_ascii c in
  (((x =? 225) && (y =? 154) && (z =? 128))
   || ((x =? 226) && (y =? 128)
       && (((128 <=? z) && (z <=? 138)) || (z =? 168) || (z =? 169) || (z =? 175)))
   || ((x =? 226) && (y =? 129) && (z =? 159))
   || ((x =? 227) && (y =? 128) && (z =? 128)))%N.

(** [strings.TrimLeftFunc(s, unicode.IsSpace)]: runes are decoded from the
    left; an invalid byte decodes to U+FFFD, which is not white space. *)
Fixpoint TrimLeftSpace (s : string) : string :=
  match s with
  | EmptyString => s
  | String a s1 =>
      if asciiSpace a then TrimLeftSpace s1
      else
        match s1 with
        | EmptyString => s
        | String b s2 =>
            if space2 a b then TrimLeftSpace s2
            else
              match s2 with
              | EmptyString => s
              | String c s3 => if space3 a b c then TrimLeftSpace s3 else s
              end
        end
  end.

Fixpoint rev_onto (s acc : string) : string :=
  match s with
  | EmptyString => acc
  | String a s' => rev_onto s' (String a acc)
  end.

Definition rev (s : string) : string := rev_onto s EmptyString.

(** The same scan on the reversed string: the last rune is white space
    exactly when the string ends with one of the encodings above. *)
Fixpoint TrimLeftSpaceRev (s : string) : string :=
  match s with
  | EmptyString => s
  | String a s1 =>
      if asciiSpace a then TrimLeftSpaceRev s1
      else
        match s1 with
        | EmptyString => s
        | String b s2 =>
            if space2 b a then TrimLeftSpaceRev s2
            else
              match s2 with
              | EmptyString => s
              | String c s3 => if space3 c b a then TrimLeftSpaceRev s3 else s
              end
        end
  end.

Definition TrimRightSpace (s : string) : string := rev (TrimLeftSpaceRev (rev s)).

(** [strings.TrimSpace]: leading and trailing white space removed, as
    defined by Unicode. *)
Definition TrimSpace (s : string) : string := TrimRightSpace (TrimLeftSpace s).

(** [strings.IndexByte]: index of the first [c] in [s], or -1. *)
Fixpoint IndexByte (s : string) (c : ascii) : Z :=
  match s with
  | EmptyString => -1
  | String a s' =>
      if Ascii.eqb a c then 0
      else let i := IndexByte s' c in if i <? 0 then -1 else i + 1
  end.

Definition len (s : string) : Z := Z.of_nat (String.length s).

(** [s[:i]] and [s[i:]] for [0 <= i <= len(s)]. *)
Definition slice_to (s : string) (i : Z) : string := substring 0 (Z.to_nat i) s.
Definition slice_from (s : string) (i : Z) : string :=
  substring (Z.to_nat i) (String.length s - Z.to_nat i) s.

(** [strings.TrimRight(s, cutset)] for a cutset of one byte. *)
Fixpoint drop_leading (c : ascii) (s : string) : string :=
  match s with
  | EmptyString => s
  | String a s' => if Ascii.eqb a c then drop_leading c s' else s
  end.

Definition TrimRightByte (s : string) (c : ascii) : string :=
  rev (drop_leading c (rev s)).

(** [strings.Split(s, sep)[0]] for the separator of one byte: [s] up to its
    first [sep]. *)
Fixpoint first_piece (s : string) (sep : ascii) : string :=
  match s with
  | EmptyString => s
  | String a s' => if Ascii.eqb a sep then EmptyString else String a (first_piece s' sep)
  end.

(** [strings.Contains]. *)
Fixpoint Contains (s sub : string) : bool :=
  String.prefix sub s
  || match s with
     | EmptyString => false
     | String _ s' => Contains s' sub
     end.

(** A string of [n] copies of one byte. *)
Fixpoint repeat_byte (c : ascii) (n : nat) : string :=
  match n with
  | O => EmptyString
  | S n' => String c (repeat_byte c n')
  end.

End GoStrings.

Module GoStrconv.

(** The size of Go's [int]; the supported platforms are 64-bit. *)
Definition intSize : Z := 64.

Definition digit_of (c : ascii) : option Z :=
  let n := Z.of_N (N_of_ascii c) in
  if (48 <=? n) && (n <=? 57) then Some (n - 48) else None.

(** The digit loop of [strconv.ParseUint] in base 10: every byte has to be
    a decimal digit (an underscore is accepted with base 0 only). *)
Fixpoint parse_digits (s : string) (acc : Z) : option Z :=
  match s with
  | EmptyString => Some acc
  | String c s' =>
      match digit_of c with
      | Some d => parse_digits s' (acc * 10 + d)
      | None => None
      end
  end.

(** [strconv.ParseInt(s, 10, bitSize)]: [None] stands for a non-nil error,
    be it a syntax error (empty string, sign alone, a byte that is no
    digit) or a range error. *)
Definition ParseInt10 (s : string) (bitSize : Z) : option Z :=
  match s with
  | EmptyString => None
  | String c s' =>
      let neg := Ascii.eqb c "-" in
      let digits := if Ascii.eqb c "+" || neg then s' else s in
      match digits with
      | EmptyString => None
      | _ =>
          match parse_digits digits 0 with
          | None => None
          | Some un =>
              let cutoff := 2 ^ (bitSize - 1) in
              if negb neg && (cutoff <=? un) then None
              else if neg && (cutoff <? un) then None
              else Some (if neg then - un else un)
          end
      end
  end.

(** [strconv.Atoi]: its fast path and [ParseInt(s, 10, 0)] agree. *)
Definition Atoi (s : string) : option Z := ParseInt10 s intSize.

(** [strconv.Itoa]. *)
Definition Itoa (i : Z) : string := NilZero.string_of_int (Z.to_int i).

End GoStrconv.

(** What the packages take from [strconv], [fmt] and [time] on floating
    point numbers, quoting and durations.  The development is parametric in
    these: no property below depends on how a float is rounded or printed. *)
Class GoPlatform := {
  float64 : Type;
  float64_zero : float64;
  (** [strconv.ParseFloat(s, 64)], [None] for a non-nil error *)
  ParseFloat : string -> option float64;
  (** [fmt.Sprintf("%.3f", f)] *)
  FormatFloat3 : float64 -> string;
  (** the verb [%q] of [fmt] on a string *)
  Quote : string -> string;
  (** [time.Duration.String] on a number of nanoseconds *)
  DurationString : Z -> string;
  (** [strings.Fields] and [strings.ToLower] *)
  Fields : string -> list string;
  ToLower : string -> string;
  (** the capacity which [append] gives a slice of capacity [old] that has to
      hold [need] elements ([growslice] of the runtime) *)
  growcap : nat -> nat -> nat;
  growcap_enough : forall old need : nat, (need <= growcap old need)%nat;
}.


(** ** Error values *)

Module GoErrors.

(** The two tools share their messages up to the name. *)
Inductive tool_kind := FFmpeg | FFprobe.

Definition tool_name (k : tool_kind) : string :=
  match k with FFmpeg => "ffmpeg" | FFprobe => "ffprobe" end.

Definition path_field (k : tool_kind) : string :=
  match k with FFmpeg => "FFmpegPath" | FFprobe => "FFProbePath" end.

(** A Go [error].  [Foreign] is a value made outside the two packages (by
    [os/exec], by the context or by the progress sink), with its message and
    whether it is an [*exec.ExitError]; every other constructor is one
    [fmt.Errorf] call of the packages, with the arguments it formats. *)
Inductive error :=
| Foreign (msg : string) (is_exit : bool)
| NotFound (k : tool_kind) (path : string) (cause : error)
| CheckTimedOut (k : tool_kind) (resolved : string)
| CannotRun (k : tool_kind) (resolved : string) (cause : error) (stderr : string)
| StdoutPipe (cause : error)
| StderrPipe (cause : error)
| StartFailed (cause : error)
| TimedOut (timeout : Z) (stderr : string)
| Failed (cause : error) (stderr : string)
| ExecError (cause : error) (stderr : string).

(** [errors.As(err, &ee)] with [ee] an [*exec.ExitError]: the chain of [%w]
    causes is searched. *)
Fixpoint is_ExitError (e : error) : bool :=
  match e with
  | Foreign _ b => b
  | NotFound _ _ c | CannotRun _ _ c _ | StdoutPipe c | StderrPipe c
  | StartFailed c | Failed c _ | ExecError c _ => is_ExitError c
  | CheckTimedOut _ _ | TimedOut _ _ => false
  end.

(** The classification of section 7 of the specification for a failed run. *)
Definition is_timeout (e : error) : bool :=
  match e with TimedOut _ _ => true | _ => false end.

(** The text of the subprocess's stderr that a run error carries (its
    [stderr=%s] argument). *)
Definition diagnostic (e : error) : string :=
  match e with
  | TimedOut _ stderr | Failed _ stderr | ExecError _ stderr
  | CannotRun _ _ _ stderr => stderr
  | _ => ""
  end.

Section Message.
Context `{GoPlatform}.

(** [err.Error()]. *)
Fixpoint Error (e : error) : string :=
  match e with
  | Foreign msg _ => msg
  | NotFound k path c =>
      tool_name k +:+ " not found (" +:+ path_field k +:+ "=" +:+ Quote path
        +:+ "): " +:+ Error c
  | CheckTimedOut k resolved =>
      tool_name k +:+ " check timed out (path=" +:+ Quote resolved +:+ ")"
  | CannotRun k resolved c stderr =>
      tool_name k +:+ " exists but cannot run (path=" +:+ Quote resolved
        +:+ "): " +:+ Error c +:+ "; stderr=" +:+ stderr
  | StdoutPipe c => "ffmpeg stdout pipe: " +:+ Error c
  | StderrPipe c => "ffmpeg stderr pipe: " +:+ Error c
  | StartFailed c => "ffmpeg start: " +:+ Error c
  | TimedOut timeout stderr =>
      "ffmpeg timed out after " +:+ DurationString timeout +:+ "; stderr=" +:+ stderr
  | Failed c stderr => "ffmpeg failed: " +:+ Error c +:+ "; stderr=" +:+ stderr
  | ExecError c stderr => "ffmpeg exec error: " +:+ Error c +:+ "; stderr=" +:+ stderr
  end.

End Message.

End GoErrors.

(** ** The progress decoder (package ffmpeg) *)

Module Progress.
Import GoStrings GoStrconv GoErrors.

(** A Go map is a reference: the store holds the maps that were made, a map
    value is the index of its cell, and [None] is the nil map. *)
Abbreviation mapref := nat.
Abbreviation mapstore := (list (gmap string string)).

Section Decoder.
Context `{GoPlatform}.

Record FFmpegProgress := mkProgress {
  Frame : Z;
  FPS : float64;
  Bitrate : string;
  Speed : string;
  OutTimeMs : Z;
  Done : bool;
  Extra : option mapref;
}.

(** The zero value, [var p FFmpegProgress]. *)
Definition zero : FFmpegProgress :=
  mkProgress 0 float64_zero "" "" 0 false None.

Definition set_Frame (n : Z) (p : FFmpegProgress) :=
  mkProgress n (FPS p) (Bitrate p) (Speed p) (OutTimeMs p) (Done p) (Extra p).
Definition set_FPS (f : float64) (p : FFmpegProgress) :=
  mkProgress (Frame p) f (Bitrate p) (Speed p) (OutTimeMs p) (Done p) (Extra p).
Definition set_Bitrate (v : string) (p : FFmpegProgress) :=
  mkProgress (Frame p) (FPS p) v (Speed p) (OutTimeMs p) (Done p) (Extra p).
Definition set_Speed (v : string) (p : FFmpegProgress) :=
  mkProgress (Frame p) (FPS p) (Bitrate p) v (OutTimeMs p) (Done p) (Extra p).
Definition set_OutTimeMs (n : Z) (p : FFmpegProgress) :=
  mkProgress (Frame p) (FPS p) (Bitrate p) (Speed p) n (Done p) (Extra p).
Definition set_Done (b : bool) (p : FFmpegProgress) :=
  mkProgress (Frame p) (FPS p) (Bitrate p) (Speed p) (OutTimeMs p) b (Extra p).
Definition set_Extra (m : option mapref) (p : FFmpegProgress) :=
  mkProgress (Frame p) (FPS p) (Bitrate p) (Speed p) (OutTimeMs p) (Done p) m.

(** [func (p *FFmpegProgress) applyKV(k, v string)].  The receiver is passed
    in and out; the store is threaded for the writes into [p.Extra]. *)
Definition applyKV (k v : string) (p : FFmpegProgress) (h : mapstore)
  : FFmpegProgress * mapstore :=
  if String.eqb k "frame" then
    match Atoi v with
    | Some n => (set_Frame n p, h)
    | None => (p, h)
    end
  else if String.eqb k "fps" then
    match ParseFloat v with
    | Some f => (set_FPS f p, h)
    | None => (p, h)
    end
  else if String.eqb k "bitrate" then (set_Bitrate v p, h)
  else if String.eqb k "speed" then (set_Speed v p, h)
  else if String.eqb k "out_time_ms" then
    match ParseInt10 v 64 with
    | Some n => (set_OutTimeMs n p, h)
    | None => (p, h)
    end
  else if String.eqb k "progress" then (set_Done (String.eqb v "end") p, h)
  else
    let '(m, h1) :=
      match Extra p with
      | None => (length h, (h ++ [∅])%list)
      | Some m => (m, h)
      end in
    (set_Extra (Some m) p, alter (insert k v) m h1).

(** [func parseProgressLine(line string, p *FFmpegProgress)]. *)
Definition parseProgressLine (line : string) (p : FFmpegProgress) (h : mapstore)
  : FFmpegProgress * mapstore :=
  let line := TrimSpace line in
  if String.eqb line "" then (p, h)
  else
    let i := IndexByte line "=" in
    if i <=? 0 then (p, h)
    else applyKV (slice_to line i) (slice_from line (i + 1)) p h.

(** The fold of [parseProgressLine] over lines, one decoder [p]. *)
Fixpoint decodeLines (lines : list string) (p : FFmpegProgress) (h : mapstore)
  : FFmpegProgress * mapstore :=
  match lines with
  | [] => (p, h)
  | line :: rest =>
      let '(p1, h1) := parseProgressLine line p h in
      decodeLines rest p1 h1
  end.

(** The progress sink, [func(p FFmpegProgress) error], as a transition of
    the caller's own state.  It is handed the snapshot and may read the map
    store; sinks that write into the [Extra] map they are handed are outside
    this model. *)
Definition sink (S : Type) : Type :=
  S -> FFmpegProgress -> mapstore -> S * option error.

(** What [scanProgress] leaves behind: [*last], the sink's state, whether
    [cancel()] was called, the lines the scanner was not asked for, and
    the store. *)
Record scanned (S : Type) := mkScanned {
  sc_last : FFmpegProgress;
  sc_sink : S;
  sc_cancelled : bool;
  sc_unread : list string;
  sc_store : mapstore;
}.
Arguments mkScanned {S}.
Arguments sc_last {S}.
Arguments sc_sink {S}.
Arguments sc_cancelled {S}.
Arguments sc_unread {S}.
Arguments sc_store {S}.

(** The loop of [scanProgress] over the lines which [bufio.Scanner] yields,
    with [p] the local decoder and [last] the caller's variable. *)
Fixpoint scanLoop {S : Type} (lines : list string) (last p : FFmpegProgress)
    (cb : option (sink S)) (st : S) (h : mapstore) : scanned S :=
  match lines with
  | [] => mkScanned last st false [] h
  | line :: rest =>
      let '(p1, h1) := parseProgressLine line p h in
      match cb with
      | Some f =>
          let '(st1, err) := f st p1 h1 in
          match err with
          | Some _ => mkScanned p1 st1 true rest h1
          | None =>
              if Done p1 then mkScanned p1 st1 false rest h1
              else scanLoop rest p1 p1 cb st1 h1
          end
      | None =>
          if Done p1 then mkScanned p1 st false rest h1
          else scanLoop rest p1 p1 cb st h1
      end
  end.

(** [func scanProgress(r, last, cb, cancel)]: the decoder starts from the
    zero value. *)
Definition scanProgress {S : Type} (lines : list string) (last : FFmpegProgress)
    (cb : option (sink S)) (st : S) (h : mapstore) : scanned S :=
  scanLoop lines last zero cb st h.

(** What a reader of a snapshot sees: the fields, with the [Extra] reference
    resolved in the store. *)
Record Snapshot := mkSnapshot {
  s_frame : Z;
  s_fps : float64;
  s_bitrate : string;
  s_speed : string;
  s_out_time_ms : Z;
  s_done : bool;
  s_extra : option (gmap string string);
}.

Definition observe (h : mapstore) (p : FFmpegProgress) : Snapshot :=
  mkSnapshot (Frame p) (FPS p) (Bitrate p) (Speed p) (OutTimeMs p) (Done p)
    (match Extra p with Some m => h !! m | None => None end).

(** The key [k] is one of the numeric keys and [v] does not parse as its
    number. *)
Definition malformed_numeric (k v : string) : Prop :=
  (k = "frame" /\ Atoi v = None)
  \/ (k = "fps" /\ ParseFloat v = None)
  \/ (k = "out_time_ms" /\ ParseInt10 v 64 = None).

(** The lines [post] were left in the reader as well. *)
Definition with_unread {S : Type} (r : scanned S) (post : list string) : scanned S :=
  mkScanned (sc_last r) (sc_sink r) (sc_cancelled r) (sc_unread r ++ post)%list
    (sc_store r).

(** The [Extra] reference of a decoder points into the store. *)
Definition wf_progress (h : mapstore) (p : FFmpegProgress) : Prop :=
  match Extra p with
  | Some m => (m < length h)%nat
  | None => True
  end.

(** *** The decoder as a fold over values

    The same fold written on snapshots, where the map is a value and no
    store is involved: what section 4.3 of the specification calls a pure
    fold over text lines. *)
Definition fold_kv (k v : string) (s : Snapshot) : Snapshot :=
  let upd fr fp br sp ot dn ex := mkSnapshot fr fp br sp ot dn ex in
  if String.eqb k "frame" then
    match Atoi v with
    | Some n => upd n (s_fps s) (s_bitrate s) (s_speed s) (s_out_time_ms s) (s_done s) (s_extra s)
    | None => s
    end
  else if String.eqb k "fps" then
    match ParseFloat v with
    | Some f => upd (s_frame s) f (s_bitrate s) (s_speed s) (s_out_time_ms s) (s_done s) (s_extra s)
    | None => s
    end
  else if String.eqb k "bitrate" then
    upd (s_frame s) (s_fps s) v (s_speed s) (s_out_time_ms s) (s_done s) (s_extra s)
  else if String.eqb k "speed" then
    upd (s_frame s) (s_fps s) (s_bitrate s) v (s_out_time_ms s) (s_done s) (s_extra s)
  else if String.eqb k "out_time_ms" then
    match ParseInt10 v 64 with
    | Some n => upd (s_frame s) (s_fps s) (s_bitrate s) (s_speed s) n (s_done s) (s_extra s)
    | None => s
    end
  else if String.eqb k "progress" then
    upd (s_frame s) (s_fps s) (s_bitrate s) (s_speed s) (s_out_time_ms s)
      (String.eqb v "end") (s_extra s)
  else
    upd (s_frame s) (s_fps s) (s_bitrate s) (s_speed s) (s_out_time_ms s) (s_done s)
      (Some (<[k := v]> (default ∅ (s_extra s)))).

Definition fold_line (line : string) (s : Snapshot) : Snapshot :=
  let line := TrimSpace line in
  if String.eqb line "" then s
  else
    let i := IndexByte line "=" in
    if i <=? 0 then s
    else fold_kv (slice_to line i) (slice_from line (i + 1)) s.

Definition fold_lines (lines : list string) (s : Snapshot) : Snapshot :=
  fold_left (fun acc line => fold_line line acc) lines s.

Definition zero_snapshot : Snapshot :=
  mkSnapshot 0 float64_zero "" "" 0 false None.

End Decoder.

Arguments mkScanned {_ S}.
Arguments sc_last {_ S}.
Arguments sc_sink {_ S}.
Arguments sc_cancelled {_ S}.
Arguments sc_unread {_ S}.
Arguments sc_store {_ S}.

End Progress.


(** ** The argument builder (package ffmpeg) *)

Module Command.
Import GoStrings GoStrconv.

(** A slice [[]string] is a view of a backing array: the array's index in
    the store of arrays, a length and a capacity.  The nil slice has no
    array.  Slices of this package always start at the head of their array. *)
Record slice := mkSlice {
  ptr : option nat;
  slen : nat;
  scap : nat;
}.

Abbreviation arrays := (list (list string)).

Definition nil_slice : slice := mkSlice None 0 0.

(** The array a slice points to. *)
Definition backing (h : arrays) (s : slice) : list string :=
  match ptr s with
  | Some a => default [] (h !! a)
  | None => []
  end.

(** The elements of a slice, [s[0], ..., s[len(s)-1]]. *)
Definition elems (h : arrays) (s : slice) : list string :=
  take (slen s) (backing h s).

(** [s[i]], for [i < len(s)]. *)
Definition index (h : arrays) (s : slice) (i : nat) : string :=
  default "" (backing h s !! i).

(** [make([]string, n, c)]: a new array of [c] empty strings. *)
Definition make (n c : nat) (h : arrays) : slice * arrays :=
  (mkSlice (Some (length h)) n c, (h ++ [replicate c ""])%list).

(** [[]string{x1, ..., xn}]. *)
Definition literal (xs : list string) (h : arrays) : slice * arrays :=
  (mkSlice (Some (length h)) (length xs) (length xs), (h ++ [xs])%list).

(** [copy(dst, src)]: the first [min(len(dst), len(src))] elements of [src]
    are written over those of [dst]. *)
Definition copy (dst src : slice) (h : arrays) : arrays :=
  let n := Nat.min (slen dst) (slen src) in
  let xs := take n (elems h src) in
  match ptr dst with
  | Some a => alter (fun arr => (xs ++ drop n arr)%list) a h
  | None => h
  end.

Section Builder.
Context `{GoPlatform}.

(** [append(s, xs...)]: if the capacity suffices the elements are written
    into the backing array behind [len(s)], and the result shares the array;
    otherwise a larger array is made and filled. *)
Definition append (s : slice) (xs : list string) (h : arrays) : slice * arrays :=
  let n := (slen s + length xs)%nat in
  if (n <=? scap s)%nat then
    match ptr s with
    | Some a =>
        (mkSlice (Some a) n (scap s),
         alter (fun arr => (take (slen s) arr ++ xs ++ drop n arr)%list) a h)
    | None => (s, h)
    end
  else
    let c := growcap (scap s) n in
    (mkSlice (Some (length h)) n c,
     (h ++ [elems h s ++ xs ++ replicate (c - n) ""])%list).

(** [type FFmpegCommand struct { args []string }]; the methods take the
    command and the store and give both back. *)
Record FFmpegCommand := mkCommand { args : slice }.

(** [func NewFFmpegCommand() *FFmpegCommand]. *)
Definition NewFFmpegCommand (h : arrays) : FFmpegCommand * arrays :=
  let '(s, h1) := literal ["-y"] h in (mkCommand s, h1).

(** [func (c *FFmpegCommand) Args() []string]. *)
Definition Args (c : FFmpegCommand) (h : arrays) : slice * arrays :=
  let '(out, h1) := make (slen (args c)) (slen (args c)) h in
  (out, copy out (args c) h1).

(** [func (c *FFmpegCommand) AppendArgs(args ...string) *FFmpegCommand]. *)
Definition AppendArgs (xs : list string) (c : FFmpegCommand) (h : arrays)
  : FFmpegCommand * arrays :=
  let '(s, h1) := append (args c) xs h in (mkCommand s, h1).

(** The loop [for _, a := range c.args] of [Overwrite]: [k] elements of
    [src] are left, from index [i] on; [n] collects those that are not
    ["-y"]. *)
Fixpoint overwrite_loop (src : slice) (i k : nat) (n : slice) (h : arrays)
  : slice * arrays :=
  match k with
  | O => (n, h)
  | S k' =>
      let a := index h src i in
      if String.eqb a "-y" then overwrite_loop src (S i) k' n h
      else
        let '(n1, h1) := append n [a] h in
        overwrite_loop src (S i) k' n1 h1
  end.

(** [func (c *FFmpegCommand) Overwrite(on bool) *FFmpegCommand]. *)
Definition Overwrite (on : bool) (c : FFmpegCommand) (h : arrays)
  : FFmpegCommand * arrays :=
  if on then (c, h)
  else
    let '(n0, h0) := make 0 (slen (args c)) h in
    let '(n, h1) := overwrite_loop (args c) 0 (slen (args c)) n0 h0 in
    AppendArgs ["-n"] (mkCommand n) h1.

Definition itoa (i : Z) : string := Itoa i.

(** [func trimFloat(f float64) string]. *)
Definition trimFloat (f : float64) : string :=
  let s := FormatFloat3 f in
  let s := TrimRightByte s "0" in
  let s := TrimRightByte s "." in
  if String.eqb s "" then "0" else s.

Definition HideBanner := AppendArgs ["-hide_banner"].
Definition LogLevel (level : string) := AppendArgs ["-v"; level].
Definition Input (path : string) := AppendArgs ["-i"; path].
Definition Output (path : string) := AppendArgs [path].
Definition VideoCodec (codec : string) := AppendArgs ["-c:v"; codec].
Definition AudioCodec (codec : string) := AppendArgs ["-c:a"; codec].
Definition CopyVideo := VideoCodec "copy".
Definition CopyAudio := AudioCodec "copy".
Definition CRF (v : Z) := AppendArgs ["-crf"; itoa v].
Definition Preset (p : string) := AppendArgs ["-preset"; p].
Definition Tune (t : string) := AppendArgs ["-tune"; t].
Definition MovFlagsFastStart := AppendArgs ["-movflags"; "+faststart"].
Definition Map (spec : string) := AppendArgs ["-map"; spec].
Definition Scale (w h : Z) := AppendArgs ["-vf"; "scale=" +:+ itoa w +:+ ":" +:+ itoa h].
Definition FPS (fps : string) := AppendArgs ["-r"; fps].
Definition StartAt (seconds : float64) := AppendArgs ["-ss"; trimFloat seconds].

(** One call of a method that changes the builder. *)
Inductive mutator :=
| CallAppendArgs (xs : list string)
| CallHideBanner
| CallLogLevel (level : string)
| CallInput (path : string)
| CallOverwrite (on : bool)
| CallOutput (path : string)
| CallVideoCodec (codec : string)
| CallAudioCodec (codec : string)
| CallCopyVideo
| CallCopyAudio
| CallCRF (v : Z)
| CallPreset (p : string)
| CallTune (t : string)
| CallMovFlagsFastStart
| CallMap (spec : string)
| CallScale (w h : Z)
| CallFPS (fps : string)
| CallStartAt (seconds : float64).

Definition call (m : mutator) : FFmpegCommand -> arrays -> FFmpegCommand * arrays :=
  match m with
  | CallAppendArgs xs => AppendArgs xs
  | CallHideBanner => HideBanner
  | CallLogLevel level => LogLevel level
  | CallInput path => Input path
  | CallOverwrite on => Overwrite on
  | CallOutput path => Output path
  | CallVideoCodec codec => VideoCodec codec
  | CallAudioCodec codec => AudioCodec codec
  | CallCopyVideo => CopyVideo
  | CallCopyAudio => CopyAudio
  | CallCRF v => CRF v
  | CallPreset p => Preset p
  | CallTune t => Tune t
  | CallMovFlagsFastStart => MovFlagsFastStart
  | CallMap spec => Map spec
  | CallScale w h => Scale w h
  | CallFPS fps => FPS fps
  | CallStartAt seconds => StartAt seconds
  end.

(** A chain of calls, [c.M1(...).M2(...)...]. *)
Fixpoint calls (ms : list mutator) (c : FFmpegCommand) (h : arrays)
  : FFmpegCommand * arrays :=
  match ms with
  | [] => (c, h)
  | m :: rest => let '(c1, h1) := call m c h in calls rest c1 h1
  end.

(** *** The builder on plain lists

    What each call does to the list of arguments, without the store. *)
Definition tokens (m : mutator) : list string :=
  match m with
  | CallAppendArgs xs => xs
  | CallHideBanner => ["-hide_banner"]
  | CallLogLevel level => ["-v"; level]
  | CallInput path => ["-i"; path]
  | CallOverwrite on => if on then [] else ["-n"]
  | CallOutput path => [path]
  | CallVideoCodec codec => ["-c:v"; codec]
  | CallAudioCodec codec => ["-c:a"; codec]
  | CallCopyVideo => ["-c:v"; "copy"]
  | CallCopyAudio => ["-c:a"; "copy"]
  | CallCRF v => ["-crf"; itoa v]
  | CallPreset p => ["-preset"; p]
  | CallTune t => ["-tune"; t]
  | CallMovFlagsFastStart => ["-movflags"; "+faststart"]
  | CallMap spec => ["-map"; spec]
  | CallScale w h => ["-vf"; "scale=" +:+ itoa w +:+ ":" +:+ itoa h]
  | CallFPS fps => ["-r"; fps]
  | CallStartAt seconds => ["-ss"; trimFloat seconds]
  end.

Definition without_y (l : list string) : list string :=
  filter (fun a => a <> "-y") l.

Definition list_call (m : mutator) (l : list string) : list string :=
  match m with
  | CallOverwrite false => (without_y l ++ tokens m)%list
  | _ => (l ++ tokens m)%list
  end.

Definition list_calls (ms : list mutator) (l : list string) : list string :=
  fold_left (fun acc m => list_call m acc) ms l.

(** A slice is well formed in a store when its array is there, has the
    slice's capacity as its size, and holds the slice's length. *)
Definition wf_slice (h : arrays) (s : slice) : Prop :=
  match ptr s with
  | Some a => (a < length h)%nat /\ length (backing h s) = scap s /\ (slen s <= scap s)%nat
  | None => slen s = 0%nat /\ scap s = 0%nat
  end.

End Builder.

End Command.


(** ** The readiness check (packages ffmpeg and ffprobe) *)

Module Tool.
Import GoStrings GoErrors.

Definition second : Z := 1000000000.

(** What [exec.LookPath] answers. *)
Inductive looked :=
| Found (resolved : string)
| Missing (err : error).

(** What is seen of one run of [resolved -version] under its deadline:
    the error of [cmd.Run()], whether [cctx.Err()] is then
    [context.DeadlineExceeded], and the two buffers. *)
Record probe := mkProbe {
  run_err : option error;
  run_deadline : bool;
  run_stdout : string;
  run_stderr : string;
}.

(** The operating system, as one call of [ensureReady] finds it. *)
Record world := mkWorld {
  LookPath : string -> looked;
  RunVersion : string -> Z -> probe;
}.

(** The calls that leave the process. *)
Inductive syscall :=
| SysLookPath (path : string)
| SysRun (resolved : string) (deadline : Z).

(** [FFmpegTool] and [ffprobe.Tool] have the same fields; [ToolPath] is
    [FFmpegPath], respectively [FFProbePath].  The mutex is not part of the
    state: it brackets the steps of [step] below. *)
Record Tool := mkTool {
  ToolPath : string;
  Timeout : Z;
  checked : bool;
  resolvedPath : string;
  version : string;
  checkErr : option error;
}.

Definition NewDefaultFFmpeg : Tool := mkTool "ffmpeg" 0 false "" "" None.
Definition NewDefaultTool : Tool := mkTool "ffprobe" (15 * second) false "" "" None.

Definition minDuration (a b : Z) : Z := if a <=? b then a else b.

(** The three writes under the mutex. *)
Definition store_not_found (e : error) (t : Tool) : Tool :=
  mkTool (ToolPath t) (Timeout t) true (resolvedPath t) (version t) (Some e).
Definition store_failure (resolved : string) (e : error) (t : Tool) : Tool :=
  mkTool (ToolPath t) (Timeout t) true resolved (version t) (Some e).
Definition store_success (resolved ver : string) (t : Tool) : Tool :=
  mkTool (ToolPath t) (Timeout t) true resolved ver None.

Section Readiness.
Context `{GoPlatform}.

(** The loop shared by [parseFFmpegVersion] and [parseFFProbeVersion]:
    the field after the first field that reads [version]. *)
Fixpoint after_version (parts : list string) : string :=
  match parts with
  | p :: ((q :: _) as rest) =>
      if String.eqb (ToLower p) "version" then q else after_version rest
  | _ => ""
  end.

Definition parseFFmpegVersion (s : string) : string :=
  let first := TrimSpace (first_piece s "010") in
  after_version (Fields first).

Definition parseFFProbeVersion (s : string) : string :=
  let origFirst := TrimSpace (first_piece s "010") in
  let first := ToLower origFirst in
  if negb (Contains first "ffprobe version") then ""
  else after_version (Fields origFirst).

Definition parseVersion (k : tool_kind) : string -> string :=
  match k with FFmpeg => parseFFmpegVersion | FFprobe => parseFFProbeVersion end.

(** The path that is looked up. *)
Definition lookup_path (k : tool_kind) (t : Tool) : string :=
  if String.eqb (ToolPath t) "" then tool_name k else ToolPath t.

(** The deadline of the [-version] run: five seconds for ffmpeg; for ffprobe
    the smaller of five seconds and the tool's timeout (fifteen seconds if
    that is not positive). *)
Definition probe_deadline (k : tool_kind) (t : Tool) : Z :=
  match k with
  | FFmpeg => 5 * second
  | FFprobe =>
      let timeout := if Timeout t <=? 0 then 15 * second else Timeout t in
      minDuration timeout (5 * second)
  end.

(** The error built from a failed [-version] run. *)
Definition probe_error (k : tool_kind) (resolved : string) (r : probe) (runErr : error)
  : error :=
  if run_deadline r then CheckTimedOut k resolved
  else CannotRun k resolved runErr (TrimSpace (run_stderr r)).

Definition version_or_unknown (k : tool_kind) (stdout : string) : string :=
  let ver := parseVersion k stdout in
  if String.eqb ver "" then "unknown" else ver.

(** [func (t *FFmpegTool) ensureReady(ctx) error] and
    [func (t *Tool) ensureReady(ctx) error], one caller at a time: the
    result, the tool afterwards and the calls made to the system. *)
Definition ensureReady (k : tool_kind) (w : world) (t : Tool)
  : option error * Tool * list syscall :=
  if checked t then (checkErr t, t, [])
  else
    let path := lookup_path k t in
    match LookPath w path with
    | Missing err =>
        let t1 := store_not_found (NotFound k path err) t in
        (checkErr t1, t1, [SysLookPath path])
    | Found resolved =>
        let d := probe_deadline k t in
        let r := RunVersion w resolved d in
        match run_err r with
        | Some runErr =>
            let finalErr := probe_error k resolved r runErr in
            (Some finalErr, store_failure resolved finalErr t,
             [SysLookPath path; SysRun resolved d])
        | None =>
            let ver := version_or_unknown k (run_stdout r) in
            (None, store_success resolved ver t,
             [SysLookPath path; SysRun resolved d])
        end
    end.

(** [func (t *FFmpegTool) Version(ctx) (string, error)], and the same for
    ffprobe. *)
Definition Version (k : tool_kind) (w : world) (t : Tool)
  : (string * option error) * Tool * list syscall :=
  match ensureReady k w t with
  | (Some err, t1, log) => (("", Some err), t1, log)
  | (None, t1, log) => ((version t1, None), t1, log)
  end.

(** Calls of [ensureReady] one after the other, each meeting its own
    system: the results in order, the tool at the end, and all the calls
    made to the system. *)
Fixpoint ensureReady_each (k : tool_kind) (ws : list world) (t : Tool)
  : list (option error) * Tool * list syscall :=
  match ws with
  | [] => ([], t, [])
  | w :: rest =>
      let '(r, t1, log) := ensureReady k w t in
      let '(rs, t2, logs) := ensureReady_each k rest t1 in
      (r :: rs, t2, (log ++ logs)%list)
  end.

(** *** Several goroutines in [ensureReady]

    Where one goroutine stands in the function.  A step is what happens
    between two points at which another goroutine can run: a critical
    section of the mutex, or a call that leaves the process. *)
Inductive pc :=
| AtEntry
| Resolving
| StoringNotFound (e : error)
| ReadingCheckErr
| Probing (resolved : string)
| StoringFailure (resolved : string) (e : error)
| StoringSuccess (resolved ver : string)
| Returned (r : option error).

(** The tool, the goroutines, and the calls made so far, latest first. *)
Record config := mkConfig {
  tool : Tool;
  threads : list pc;
  syslog : list syscall;
}.

(** Goroutine [i] takes its next step, the system answering as [w]. *)
Definition step (k : tool_kind) (i : nat) (w : world) (c : config) : option config :=
  let t := tool c in
  let goto (p : pc) (t' : Tool) (calls : list syscall) :=
    Some (mkConfig t' (<[i := p]> (threads c)) (calls ++ syslog c)%list) in
  match threads c !! i with
  | None => None
  | Some AtEntry =>
      if checked t then goto (Returned (checkErr t)) t []
      else goto Resolving t []
  | Some Resolving =>
      let path := lookup_path k t in
      match LookPath w path with
      | Missing err => goto (StoringNotFound (NotFound k path err)) t [SysLookPath path]
      | Found resolved => goto (Probing resolved) t [SysLookPath path]
      end
  | Some (StoringNotFound e) => goto ReadingCheckErr (store_not_found e t) []
  | Some ReadingCheckErr => goto (Returned (checkErr t)) t []
  | Some (Probing resolved) =>
      let d := probe_deadline k t in
      let r := RunVersion w resolved d in
      match run_err r with
      | Some runErr =>
          goto (StoringFailure resolved (probe_error k resolved r runErr)) t
            [SysRun resolved d]
      | None =>
          goto (StoringSuccess resolved (version_or_unknown k (run_stdout r))) t
            [SysRun resolved d]
      end
  | Some (StoringFailure resolved e) =>
      goto (Returned (Some e)) (store_failure resolved e t) []
  | Some (StoringSuccess resolved ver) =>
      goto (Returned None) (store_success resolved ver t) []
  | Some (Returned _) => None
  end.

(** A schedule names, step by step, the goroutine that runs and the system
    it meets. *)
Fixpoint exec (k : tool_kind) (sched : list (nat * world)) (c : config) : option config :=
  match sched with
  | [] => Some c
  | (i, w) :: rest =>
      match step k i w c with
      | Some c1 => exec k rest c1
      | None => None
      end
  end.

(** [n] goroutines enter [ensureReady] on the tool [t]. *)
Definition spawn (t : Tool) (n : nat) : config := mkConfig t (replicate n AtEntry) [].

Definition is_run (s : syscall) : bool :=
  match s with SysRun _ _ => true | SysLookPath _ => false end.

(** How often the binary was run, and how often its path was resolved. *)
Definition runs (c : config) : nat := length (filter (fun s => is_run s = true) (syslog c)).
Definition lookups (c : config) : nat := length (filter (fun s => is_run s = false) (syslog c)).


End Readiness.

End Tool.


(** ** Running ffmpeg (package ffmpeg, run.go) *)

Module Run.
Import GoStrings GoErrors Progress Command Tool.

(** [cctx.Err()] once the context is done. *)
Inductive ctx_err := DeadlineExceeded | Canceled.

(** A context keeps the first cause that ended it. *)
Definition ctx_done (cause : option ctx_err) (st : option ctx_err) : option ctx_err :=
  match st with
  | Some e => Some e
  | None => cause
  end.

(** [cancel()]. *)
Definition cancel (st : option ctx_err) : option ctx_err := ctx_done (Some Canceled) st.

(** [func trimSpace(s string) string]. *)
Definition trimSpace (s : string) : string := TrimSpace s.

Section Supervisor.
Context `{GoPlatform}.

(** What one call of [RunWithProgress] meets outside the process: the
    system at the readiness check, the errors of the two pipes and of
    [Start], the lines which the scanner yields from stdout, the bytes
    copied from stderr, what ends the run-scoped context from outside (its
    deadline, or the parent context) before and after the stdout reader
    returns, and the result of [Wait]. *)
Record environment := mkEnvironment {
  env_world : world;
  env_stdout_pipe : option error;
  env_stderr_pipe : option error;
  env_start : option error;
  env_stdout : list string;
  env_stderr : string;
  env_ctx_early : option ctx_err;
  env_ctx_late : option ctx_err;
  env_wait : option error;
}.

(** What the call leaves: the two results, the tool, the sink's state, the
    two stores, the argument vector handed to [exec.CommandContext] (if it
    got that far) and [cctx.Err()] when the outcome was decided. *)
Record outcome (S : Type) := mkOutcome {
  out_last : FFmpegProgress;
  out_err : option error;
  out_tool : Tool;
  out_sink : S;
  out_maps : mapstore;
  out_arrays : arrays;
  out_argv : option (list string);
  out_ctx : option ctx_err;
}.
Arguments mkOutcome {S}.
Arguments out_last {S}.
Arguments out_err {S}.
Arguments out_tool {S}.
Arguments out_sink {S}.
Arguments out_maps {S}.
Arguments out_arrays {S}.
Arguments out_argv {S}.
Arguments out_ctx {S}.

(** The tail of [RunWithProgress], from [if waitErr != nil] on. *)
Definition report (timeout : Z) (ctx : option ctx_err) (waitErr : option error)
    (stderrBuf : string) : option error :=
  match waitErr with
  | Some werr =>
      match ctx with
      | Some DeadlineExceeded => Some (TimedOut timeout (trimSpace stderrBuf))
      | _ =>
          if is_ExitError werr then Some (Failed werr (trimSpace stderrBuf))
          else Some (ExecError werr (trimSpace stderrBuf))
      end
  | None => None
  end.

(** The arguments of the subprocess: [cmd.Args()], and the progress flags
    appended to that copy when there is a sink. *)
Definition launch_args (cmd : FFmpegCommand) (progress : bool) (a : arrays)
  : slice * arrays :=
  let '(args, a1) := Args cmd a in
  if progress then append args ["-progress"; "pipe:1"; "-nostats"] a1
  else (args, a1).

(** [func (t *FFmpegTool) RunWithProgress(ctx, cmd, onProgress)]. *)
Definition RunWithProgress {S : Type} (env : environment) (t : Tool)
    (cmd : FFmpegCommand) (onProgress : option (sink S)) (st : S)
    (m : mapstore) (a : arrays) : outcome S :=
  let last := zero in
  match ensureReady FFmpeg (env_world env) t with
  | (Some err, t1, _) => mkOutcome last (Some err) t1 st m a None None
  | (None, t1, _) =>
      let timeout := Timeout t1 in
      let '(args, a1) := launch_args cmd (bool_decide (is_Some onProgress)) a in
      let argv := Some (elems a1 args) in
      match env_stdout_pipe env with
      | Some err => mkOutcome last (Some (StdoutPipe err)) t1 st m a1 argv None
      | None =>
      match env_stderr_pipe env with
      | Some err => mkOutcome last (Some (StderrPipe err)) t1 st m a1 argv None
      | None =>
      match env_start env with
      | Some err => mkOutcome last (Some (StartFailed err)) t1 st m a1 argv None
      | None =>
          let stderrBuf := env_stderr env in
          let sc :=
            match onProgress with
            | Some _ => scanProgress (env_stdout env) last onProgress st m
            | None => mkScanned last st false [] m
            end in
          let ctx0 := ctx_done (env_ctx_early env) None in
          let ctx1 := if sc_cancelled sc then cancel ctx0 else ctx0 in
          let ctx2 := ctx_done (env_ctx_late env) ctx1 in
          mkOutcome (sc_last sc)
            (report timeout ctx2 (env_wait env) stderrBuf)
            t1 (sc_sink sc) (sc_store sc) a1 argv ctx2
      end end end
  end.

(** [func (t *FFmpegTool) Run(ctx, cmd) error]. *)
Definition Run (env : environment) (t : Tool) (cmd : FFmpegCommand)
    (m : mapstore) (a : arrays) : outcome unit :=
  RunWithProgress env t cmd None tt m a.

(** The subprocess was started: the tool is ready, the pipes were made and
    [Start] gave no error. *)
Definition launched (env : environment) (t : Tool) : Prop :=
  (ensureReady FFmpeg (env_world env) t).1.1 = None
  /\ env_stdout_pipe env = None /\ env_stderr_pipe env = None /\ env_start env = None.

(** A run failure: the subprocess was started and [Wait] gave an error. *)
Definition run_failed (env : environment) (t : Tool) : Prop :=
  launched env t /\ is_Some (env_wait env).

(** The sink returned an error on one of the snapshots it was handed. *)
Definition sink_aborted {S : Type} (env : environment) (cb : sink S) (st : S)
    (m : mapstore) : Prop :=
  sc_cancelled (scanProgress (env_stdout env) zero (Some cb) st m) = true.

(** Every failed run carries at most [bound] bytes of stderr text. *)
Definition diagnostic_truncated_to (bound : nat) : Prop :=
  forall (env : environment) (t : Tool) (cmd : FFmpegCommand) (m : mapstore) (a : arrays),
    run_failed env t ->
    exists e, out_err (Run env t cmd m a) = Some e
              /\ (String.length (diagnostic e) <= bound)%nat.

(** The outcome is classified as a timeout. *)
Definition reported_as_timeout {S : Type} (r : outcome S) : Prop :=
  exists e, out_err r = Some e /\ is_timeout e = true.

End Supervisor.

Arguments mkOutcome {_ S}.
Arguments out_last {_ S}.
Arguments out_err {_ S}.
Arguments out_tool {_ S}.
Arguments out_sink {_ S}.
Arguments out_maps {_ S}.
Arguments out_arrays {_ S}.
Arguments out_argv {_ S}.
Arguments out_ctx {_ S}.
Arguments reported_as_timeout {_ S}.
Arguments sink_aborted {_ S}.

End Run.

(** ** A platform to run the definitions on

    Text is ASCII, floats are the integers (read by [Atoi], printed with
    three zero decimals), a quoted string is put between quotation marks, a
    duration is printed in nanoseconds, and a slice that grows doubles.  The
    theorems below hold on every platform; this one evaluates them at
    concrete inputs. *)
Module DemoPlatform.

Definition lower_byte (c : ascii) : ascii :=
  let n := N_of_ascii c in
  if ((65 <=? n) && (n <=? 90))%N then ascii_of_N (n + 32) else c.

Fixpoint lower (s : string) : string :=
  match s with
  | EmptyString => s
  | String c s' => String (lower_byte c) (lower s')
  end.

(** The fields of [s], the field being read first: [cur] holds its bytes
    in reverse. *)
Fixpoint fields_from (s cur : string) : list string :=
  let close := match cur with EmptyString => [] | _ => [GoStrings.rev cur] end in
  match s with
  | EmptyString => close
  | String c s' =>
      if GoStrings.asciiSpace c then (close ++ fields_from s' EmptyString)%list
      else fields_from s' (String c cur)
  end.

Definition quotation_mark : string := String (ascii_of_N 34) EmptyString.

Definition growcap (old need : nat) : nat := Nat.max need (2 * old).

Definition growcap_enough (old need : nat) : (need <= growcap old need)%nat :=
  Nat.le_max_l need (2 * old).

End DemoPlatform.

Definition demo_platform : GoPlatform := {|
  float64 := Z;
  float64_zero := 0;
  ParseFloat := GoStrconv.Atoi;
  FormatFloat3 := fun f => GoStrconv.Itoa f +:+ ".000";
  Quote := fun s => DemoPlatform.quotation_mark +:+ s +:+ DemoPlatform.quotation_mark;
  DurationString := fun d => GoStrconv.Itoa d +:+ "ns";
  Fields := fun s => DemoPlatform.fields_from s EmptyString;
  ToLower := DemoPlatform.lower;
  growcap := DemoPlatform.growcap;
  growcap_enough := DemoPlatform.growcap_enough;
|}.

(** ** Scenarios

    Systems, environments and a sink used to exhibit behaviours. *)
Module Scenarios.
Import GoErrors Progress Command Tool Run.

(** The binary is found and runs. *)
Definition world_healthy : world :=
  mkWorld (fun path => Found ("/usr/bin/" +:+ path))
    (fun _ _ => mkProbe None false "ffmpeg version 6.0" "").

(** The binary is found and exits with status 1. *)
Definition world_broken : world :=
  mkWorld (fun path => Found ("/usr/bin/" +:+ path))
    (fun _ _ => mkProbe (Some (Foreign "exit status 1" true)) false "" "no codecs").

(** The binary is not on the path. *)
Definition world_missing : world :=
  mkWorld (fun _ => Missing (Foreign "executable file not found in $PATH" false))
    (fun _ _ => mkProbe None false "" "").

(** Two goroutines pass the test of [checked] before either has stored its
    result; the first meets a broken binary, the second a healthy one. *)
Definition racing_schedule : list (nat * world) :=
  [(0%nat, world_healthy); (1%nat, world_healthy);
   (0%nat, world_broken); (1%nat, world_healthy);
   (0%nat, world_broken); (1%nat, world_healthy);
   (0%nat, world_healthy); (1%nat, world_healthy)].

Section OnAPlatform.
Context `{GoPlatform}.

(** A sink that asks to stop at the first snapshot. *)
Definition stop_at_once : sink nat :=
  fun n _ _ => (S n, Some (Foreign "stop" false)).

(** ffmpeg writes progress lines, the sink stops the run, no deadline
    expires, and the killed subprocess makes [Wait] return an exit error. *)
Definition aborted_run : environment :=
  mkEnvironment world_healthy None None None ["frame=1"; "frame=2"] "" None None
    (Some (Foreign "signal: killed" true)).

(** ffmpeg exits with status 1 after writing [n] bytes to stderr. *)
Definition noisy_failure (n : nat) : environment :=
  mkEnvironment world_healthy None None None [] (GoStrings.repeat_byte "x" n) None None
    (Some (Foreign "exit status 1" true)).

(** A new command in an empty store. *)
Definition fresh_command : FFmpegCommand * arrays := NewFFmpegCommand [].

End OnAPlatform.

End Scenarios.

(** ** More on the progress decoder *)

Module ProgressTrace.
Import GoStrings GoErrors Progress.

Section Trace.
Context `{GoPlatform}.

(** The decoder after each of the lines, in order. *)
Fixpoint decodeStates (lines : list string) (p : FFmpegProgress) (h : mapstore)
  : list FFmpegProgress :=
  match lines with
  | [] => []
  | line :: rest =>
      let '(p1, h1) := parseProgressLine line p h in
      p1 :: decodeStates rest p1 h1
  end.

(** The lines up to and with the first one that leaves the decoder [Done]:
    the lines a scan reads when its sink never asks to stop. *)
Fixpoint linesRead (lines : list string) (p : FFmpegProgress) (h : mapstore)
  : list string :=
  match lines with
  | [] => []
  | line :: rest =>
      let '(p1, h1) := parseProgressLine line p h in
      if Done p1 then [line] else line :: linesRead rest p1 h1
  end.

(** A sink that keeps every snapshot it is handed and never asks to stop. *)
Definition recorder : sink (list FFmpegProgress) :=
  fun seen p _ => ((seen ++ [p])%list, None).


(** A line that [parseProgressLine] returns on before [applyKV]: nothing is
    left after trimming, or there is no separator, or the key is empty. *)
Definition ignored_line (line : string) : Prop :=
  TrimSpace line = ""
  \/ IndexByte (TrimSpace line) "=" = -1
  \/ exists rest, TrimSpace line = String "=" rest.

End Trace.

End ProgressTrace.

(** ** The presets (package ffmpeg, preset.go) *)

Module Presets.
Import GoStrings Command.

(** The last byte of a string. *)
Fixpoint last_byte (s : string) : option ascii :=
  match s with
  | EmptyString => None
  | String a EmptyString => Some a
  | String _ s' => last_byte s'
  end.

Section Presets.
Context `{GoPlatform}.

(** [func PresetTranscodeMP4H264AAC(input, output string, crf int, preset string)]. *)
Definition PresetTranscodeMP4H264AAC (input output : string) (crf : Z) (preset : string)
    (h : arrays) : FFmpegCommand * arrays :=
  let crf := if crf <=? 0 then 23 else crf in
  let preset := if String.eqb preset "" then "medium" else preset in
  let '(c, h1) := NewFFmpegCommand h in
  calls [CallHideBanner; CallLogLevel "error"; CallInput input;
         CallVideoCodec "libx264"; CallAudioCodec "aac"; CallCRF crf;
         CallPreset preset; CallMovFlagsFastStart; CallOutput output] c h1.

(** [func PresetRemux(input, output string)]. *)
Definition PresetRemux (input output : string) (h : arrays) : FFmpegCommand * arrays :=
  let '(c, h1) := NewFFmpegCommand h in
  calls [CallHideBanner; CallLogLevel "error"; CallInput input;
         CallCopyVideo; CallCopyAudio; CallOutput output] c h1.

(** [func PresetExtractAAC(input, output string, bitrate string)]. *)
Definition PresetExtractAAC (input output bitrate : string) (h : arrays)
  : FFmpegCommand * arrays :=
  let bitrate := if String.eqb bitrate "" then "128k" else bitrate in
  let '(c, h1) := NewFFmpegCommand h in
  calls [CallHideBanner; CallLogLevel "error"; CallInput input;
         CallAppendArgs ["-vn"]; CallAudioCodec "aac";
         CallAppendArgs ["-b:a"; bitrate]; CallOutput output] c h1.

(** [func PresetSnapshot(input, output string, atSeconds float64)]. *)
Definition PresetSnapshot (input output : string) (atSeconds : float64) (h : arrays)
  : FFmpegCommand * arrays :=
  let '(c, h1) := NewFFmpegCommand h in
  calls [CallHideBanner; CallLogLevel "error";
         CallAppendArgs ["-ss"; FormatFloat3 atSeconds]; CallInput input;
         CallAppendArgs ["-frames:v"; "1"]; CallOutput output] c h1.

End Presets.

End Presets.

(** ** More on the readiness check *)

Module ToolBounds.
Import Tool.

(** Whether a goroutine is past its path look-up, and past its run of the
    binary (or has returned without either). *)
Definition past_lookup (p : pc) : nat :=
  match p with
  | AtEntry | Resolving => 0
  | _ => 1
  end.

Definition past_run (p : pc) : nat :=
  match p with
  | StoringFailure _ _ | StoringSuccess _ _ | Returned _ => 1
  | _ => 0
  end.

(** The goroutine has written its result, or read the cache. *)
Definition has_stored (p : pc) : bool :=
  match p with
  | ReadingCheckErr | Returned _ => true
  | _ => false
  end.

(** The number of goroutines, counted by [weight]. *)
Definition weight_sum (weight : pc -> nat) (ps : list pc) : nat :=
  sum_list (weight <$> ps).

(** What the goroutines of a configuration have done so far covers the
    calls that were made, and a goroutine that has stored or read a result
    implies a checked tool. *)
Definition accounted (c : config) : Prop :=
  (lookups c <= weight_sum past_lookup (threads c))%nat
  /\ (runs c <= weight_sum past_run (threads c))%nat
  /\ (forall i p, threads c !! i = Some p -> has_stored p = true ->
        checked (tool c) = true).

End ToolBounds.

(** ** Probing (package ffprobe, media.go) *)

Module Probe.
Import GoErrors Tool.

(** What [cmd.Output()] gives for one run of ffprobe: the bytes of stdout,
    the error, the stderr kept in an [*exec.ExitError], and whether
    [cctx.Err()] is then [context.DeadlineExceeded]. *)
Record output := mkOutput {
  out_bytes : string;
  out_error : option error;
  out_stderr : string;
  out_deadline : bool;
}.

(** The system as [Probe] meets it: the readiness check, and the run of the
    binary [bin] with [args] under a deadline. *)
Record probe_world := mkProbeWorld {
  pw_world : world;
  pw_output : string -> list string -> Z -> output;
}.

(** An error of [Probe]: the error of [ensureReady] returned as it is, or
    one of the four [fmt.Errorf] calls. *)
Inductive probe_error :=
| NotReady (e : error)
| ProbeFailed (cause : error) (stderr : string)
| ProbeTimedOut (timeout : Z)
| ProbeExecError (cause : error)
| ParseJSON (cause : error).

(** The calls that leave the process. *)
Inductive probe_call :=
| Check (s : syscall)
| RunProbe (bin : string) (args : list string) (deadline : Z).

Section Probing.
Context `{GoPlatform}.
(** [json.Unmarshal] into [FFProbeJSON]: the document, or the error. *)
Context {FFProbeJSON : Type} (Unmarshal : string -> error + FFProbeJSON).

(** [err.Error()] for the errors of [Probe]. *)
Definition ProbeError (e : probe_error) : string :=
  match e with
  | NotReady e => Error e
  | ProbeFailed c stderr => "ffprobe failed: " +:+ Error c +:+ "; stderr=" +:+ stderr
  | ProbeTimedOut timeout => "ffprobe timed out after " +:+ DurationString timeout
  | ProbeExecError c => "ffprobe exec error: " +:+ Error c
  | ParseJSON c => "parse ffprobe json: " +:+ Error c
  end.

(** The arguments of [Probe]. *)
Definition probe_args (input : string) : list string :=
  ["-v"; "error"; "-hide_banner"; "-show_format"; "-show_streams"; "-of"; "json"; input].

(** [func (t *Tool) Probe(ctx, input)], which returns the document and an
    error. *)
Definition Probe (pw : probe_world) (input : string) (t : Tool)
  : (option FFProbeJSON * option probe_error) * Tool * list probe_call :=
  match ensureReady FFprobe (pw_world pw) t with
  | (Some err, t1, log) => ((None, Some (NotReady err)), t1, Check <$> log)
  | (None, t1, log) =>
      let timeout := if Timeout t1 <=? 0 then 15 * second else Timeout t1 in
      let args := probe_args input in
      let ffprobeBin := resolvedPath t1 in
      let o := pw_output pw ffprobeBin args timeout in
      let calls := ((Check <$> log) ++ [RunProbe ffprobeBin args timeout])%list in
      match out_error o with
      | Some err =>
          if is_ExitError err then
            ((None, Some (ProbeFailed err (out_stderr o))), t1, calls)
          else if out_deadline o then
            ((None, Some (ProbeTimedOut timeout)), t1, calls)
          else ((None, Some (ProbeExecError err)), t1, calls)
      | None =>
          match Unmarshal (out_bytes o) with
          | inl err => ((None, Some (ParseJSON err)), t1, calls)
          | inr parsed => ((Some parsed, None), t1, calls)
          end
      end
  end.

(** [func (t *Tool) ProbeSafe(ctx, input)], which returns the document, the
    version and an error: [pw] is the system at the call of [Probe], [w] at the call of
    [Version]. *)
Definition ProbeSafe (pw : probe_world) (w : world) (input : string) (t : Tool)
  : (option FFProbeJSON * string * option probe_error) * Tool * list probe_call :=
  let '((info, err), t1, log1) := Probe pw input t in
  let '((ver, verr), t2, log2) := Version FFprobe w t1 in
  let calls := (log1 ++ (Check <$> log2))%list in
  match err with
  | Some e =>
      match verr with
      | Some _ => ((None, "", Some e), t2, calls)
      | None => ((None, ver, Some e), t2, calls)
      end
  | None =>
      match verr with
      | Some _ => ((info, "", None), t2, calls)
      | None => ((info, ver, None), t2, calls)
      end
  end.

End Probing.

End Probe.

(** ** The demo server (example/demo/main.go): events and their subscribers *)

Module Demo.
Import GoStrings.

Definition LF : ascii := "010"%char.
Definition CR : ascii := "013"%char.
Definition quotation_mark : ascii := ascii_of_N 34.

(** [strings.ReplaceAll(s, old, new)] for an [old] of one byte. *)
Fixpoint ReplaceByte (s : string) (old : ascii) (new : string) : string :=
  match s with
  | EmptyString => EmptyString
  | String a s' =>
      if Ascii.eqb a old then new +:+ ReplaceByte s' old new
      else String a (ReplaceByte s' old new)
  end.

(** Whether, and how often, a byte occurs in a string. *)
Fixpoint has_byte (c : ascii) (s : string) : bool :=
  match s with
  | EmptyString => false
  | String a s' => Ascii.eqb a c || has_byte c s'
  end.

Fixpoint count_byte (c : ascii) (s : string) : nat :=
  match s with
  | EmptyString => 0
  | String a s' => ((if Ascii.eqb a c then 1 else 0) + count_byte c s')%nat
  end.

(** The payload as [writeSSE] writes it: carriage returns dropped, every
    line feed replaced by a backslash and the letter n. *)
Definition sse_data (data : string) : string :=
  let data := ReplaceByte data CR "" in
  ReplaceByte data LF "\n".

(** [func writeSSE(w io.Writer, event, data string)]: what is written to
    [w]. *)
Definition writeSSE (event data : string) : string :=
  let data := sse_data data in
  ("event: " +:+ event +:+ String LF "") +:+ ("data: " +:+ data +:+ String LF (String LF "")).


(** *** The subscribers of a job *)

Record sseEvent := mkEvent {
  Event : string;
  Data : string;
}.

(** [make(chan sseEvent, 16)]. *)
Definition capacity : nat := 16.

(** A channel: the events it holds, oldest first, and whether it was
    closed. *)
Record channel := mkChannel {
  buffered : list sseEvent;
  closed : bool;
}.

(** The channels made so far, a channel value being the index of its cell,
    and the [subs] map of one [FFJob] ([None] for the nil map). *)
Record hub := mkHub {
  chans : list channel;
  subs : option (gset nat);
}.

(** A job that nobody has subscribed to. *)
Definition new_job : hub := mkHub [] None.

Definition subscribers (s : hub) : gset nat := default ∅ (subs s).

(** [func (j *FFJob) subscribe() chan sseEvent]. *)
Definition subscribe (s : hub) : nat * hub :=
  let ch := length (chans s) in
  (ch, mkHub (chans s ++ [mkChannel [] false])%list (Some ({[ch]} ∪ subscribers s))).

(** [func (j *FFJob) unsubscribe(ch chan sseEvent)]: [None] stands for the
    panic of [close] on a channel that is closed already. *)
Definition unsubscribe (ch : nat) (s : hub) : option hub :=
  let subs1 := (fun m : gset nat => m ∖ {[ch]}) <$> subs s in
  match chans s !! ch with
  | Some c =>
      if closed c then None
      else Some (mkHub (<[ch := mkChannel (buffered c) true]> (chans s)) subs1)
  | None => None
  end.

(** The [select] of [broadcast] on one channel: the event is sent if the
    buffer has room, and dropped otherwise. *)
Definition offer (ev : sseEvent) (c : channel) : channel :=
  if (length (buffered c) <? capacity)%nat
  then mkChannel (buffered c ++ [ev])%list (closed c)
  else c.

(** [func (j *FFJob) broadcast(ev sseEvent)]: every subscribed channel is
    offered the event; [None] stands for the panic of a send on a closed
    channel.  The order in which the map is ranged over does not matter:
    each channel is touched once. *)
Definition broadcast (ev : sseEvent) (s : hub) : option hub :=
  let members := subscribers s in
  let hit (i : nat) (c : channel) := bool_decide (i ∈ members) in
  if existsb (fun ic : nat * channel => hit ic.1 ic.2 && closed ic.2)
       (imap (fun i c => (i, c)) (chans s))
  then None
  else Some (mkHub (imap (fun i c => if hit i c then offer ev c else c) (chans s))
               (subs s)).

(** [ev := <-sub] when an event is there: the oldest event leaves the
    buffer. *)
Definition receive (ch : nat) (s : hub) : option (sseEvent * hub) :=
  match chans s !! ch with
  | Some (mkChannel (ev :: rest) cl) =>
      Some (ev, mkHub (<[ch := mkChannel rest cl]> (chans s)) (subs s))
  | _ => None
  end.

(** Events broadcast one after the other, nobody receiving. *)
Fixpoint broadcast_all (evs : list sseEvent) (s : hub) : option hub :=
  match evs with
  | [] => Some s
  | ev :: rest =>
      match broadcast ev s with
      | Some s1 => broadcast_all rest s1
      | None => None
      end
  end.

(** Events broadcast one after the other, the subscriber [ch] receiving
    after each: what [ch] received, and the hub at the end. *)
Fixpoint broadcast_and_receive (evs : list sseEvent) (ch : nat) (s : hub)
  : option (list sseEvent * hub) :=
  match evs with
  | [] => Some ([], s)
  | ev :: rest =>
      match broadcast ev s with
      | Some s1 =>
          match receive ch s1 with
          | Some (got, s2) =>
              match broadcast_and_receive rest ch s2 with
              | Some (more, s3) => Some (got :: more, s3)
              | None => None
              end
          | None => None
          end
      | None => None
      end
  end.

(** Every subscribed channel exists and is open, and no buffer holds more
    than its capacity. *)
Definition hub_ok (s : hub) : Prop :=
  (forall ch, ch ∈ subscribers s ->
     exists c, chans s !! ch = Some c /\ closed c = false)
  /\ (forall ch c, chans s !! ch = Some c -> (length (buffered c) <= capacity)%nat).

End Demo.

(** * Properties *)

(** ** The progress decoder *)

Section ProgressFacts.
Import GoStrings GoStrconv GoErrors Progress.
Context `{GoPlatform}.

Lemma append_cons a s t : String a s +:+ t = String a (s +:+ t).
Proof. reflexivity. Qed.

Lemma append_nil s : "" +:+ s = s.
Proof. reflexivity. Qed.

Lemma substring_all s : substring 0 (String.length s) s = s.
Proof. induction s as [|a s IH]; simpl; [done | by rewrite IH]. Qed.

Lemma slice_to_append k s : slice_to (k +:+ s) (len k) = k.
Proof.
  unfold slice_to, len. rewrite Nat2Z.id.
  induction k as [|a k IH].
  - rewrite append_nil. by destruct s.
  - rewrite append_cons. simpl. by rewrite IH.
Qed.

Lemma slice_from_append k a v : slice_from (k +:+ String a v) (len k + 1) = v.
Proof.
  unfold slice_from, len.
  replace (Z.to_nat (Z.of_nat (String.length k) + 1)) with (S (String.length k)) by lia.
  induction k as [|b k IH].
  - rewrite append_nil. simpl. rewrite Nat.sub_0_r. apply substring_all.
  - rewrite append_cons. simpl. apply IH.
Qed.

Lemma IndexByte_ge s c : -1 <= IndexByte s c.
Proof.
  induction s as [|a s IH]; simpl; [lia |].
  destruct (Ascii.eqb a c); [lia |]. destruct (Z.ltb_spec (IndexByte s c) 0); lia.
Qed.

Lemma IndexByte_append k c s :
  IndexByte k c = -1 -> IndexByte (k +:+ String c s) c = len k.
Proof.
  unfold len. induction k as [|a k IH]; intros Hk.
  - rewrite append_nil. simpl. by rewrite Ascii.eqb_refl.
  - rewrite append_cons. simpl in *. destruct (Ascii.eqb a c); [lia |].
    destruct (Z.ltb_spec (IndexByte k c) 0) as [Hlt | Hge]; [| lia].
    pose proof (IndexByte_ge k c). rewrite IH by lia.
    destruct (Z.ltb_spec (Z.of_nat (String.length k)) 0); lia.
Qed.

(** A trimmed line [k=v] with a key that is not empty and has no separator
    in it is handed to [applyKV] as the pair [k], [v]. *)
Lemma parse_kv_line line k v p h :
  TrimSpace line = k +:+ "=" +:+ v ->
  k <> "" -> IndexByte k "=" = -1 ->
  parseProgressLine line p h = applyKV k v p h.
Proof.
  intros Hline Hk Hsep. unfold parseProgressLine. rewrite Hline.
  change ("=" +:+ v) with (String "=" v).
  rewrite IndexByte_append by done.
  rewrite slice_to_append, slice_from_append.
  destruct k as [|a k]; [done |].
  rewrite append_cons. simpl String.eqb.
  destruct (Z.leb_spec (len (String a k)) 0) as [Hle | _]; [| done].
  unfold len in Hle. simpl in Hle. lia.
Qed.

Lemma applyKV_frame v p h :
  applyKV "frame" v p h
  = match Atoi v with Some n => (set_Frame n p, h) | None => (p, h) end.
Proof. reflexivity. Qed.

Lemma applyKV_fps v p h :
  applyKV "fps" v p h
  = match ParseFloat v with Some f => (set_FPS f p, h) | None => (p, h) end.
Proof. reflexivity. Qed.

Lemma applyKV_out_time_ms v p h :
  applyKV "out_time_ms" v p h
  = match ParseInt10 v 64 with Some n => (set_OutTimeMs n p, h) | None => (p, h) end.
Proof. reflexivity. Qed.

Lemma applyKV_progress v p h :
  applyKV "progress" v p h = (set_Done (String.eqb v "end") p, h).
Proof. reflexivity. Qed.

Lemma applyKV_malformed k v p h :
  malformed_numeric k v -> applyKV k v p h = (p, h).
Proof.
  intros [[-> Hv] | [[-> Hv] | [-> Hv]]].
  - by rewrite applyKV_frame, Hv.
  - by rewrite applyKV_fps, Hv.
  - by rewrite applyKV_out_time_ms, Hv.
Qed.

Lemma malformed_numeric_key k v :
  malformed_numeric k v -> k <> "" /\ IndexByte k "=" = -1.
Proof. by intros [[-> _] | [[-> _] | [-> _]]]. Qed.

(** C6: a numeric key (frame, fps, out_time_ms) with a value that does not
    parse leaves the snapshot and the store as they were, in [applyKV] and
    for every line that trims to [k=v]; and the lines [frame=120],
    [frame=abc] folded into a fresh decoder end with frame 120. *)
Theorem malformed_numeric_value_is_dropped k v p h :
  malformed_numeric k v ->
  applyKV k v p h = (p, h)
  /\ (forall line, TrimSpace line = k +:+ "=" +:+ v -> parseProgressLine line p h = (p, h))
  /\ Frame (decodeLines ["frame=120"; "frame=abc"] zero h).1 = 120.
Proof.
  intros Hbad. split; [by apply applyKV_malformed |]. split.
  - intros line Hline. destruct (malformed_numeric_key k v Hbad) as [Hk Hsep].
    rewrite (parse_kv_line line k v) by done. by apply applyKV_malformed.
  - reflexivity.
Qed.


(** *** The scan stops at the end marker *)

Lemma parse_progress_end line p h :
  TrimSpace line = "progress=end" ->
  parseProgressLine line p h = (set_Done true p, h).
Proof.
  intros Hline.
  rewrite (parse_kv_line line "progress" "end") by done.
  by rewrite applyKV_progress.
Qed.

Lemma scanLoop_cons {S : Type} line rest last p (cb : option (sink S)) st h :
  scanLoop (line :: rest) last p cb st h
  = let '(p1, h1) := parseProgressLine line p h in
    match cb with
    | Some f =>
        let '(st1, err) := f st p1 h1 in
        match err with
        | Some _ => mkScanned p1 st1 true rest h1
        | None =>
            if Done p1 then mkScanned p1 st1 false rest h1
            else scanLoop rest p1 p1 cb st1 h1
        end
    | None =>
        if Done p1 then mkScanned p1 st false rest h1
        else scanLoop rest p1 p1 cb st h1
    end.
Proof. reflexivity. Qed.

(** Lines behind a line that stops the scan stay unread, and change nothing
    else. *)
Lemma scanLoop_stops_at_end {S : Type} pre line post last p (cb : option (sink S)) st h :
  TrimSpace line = "progress=end" ->
  scanLoop (pre ++ line :: post) last p cb st h
  = with_unread (scanLoop (pre ++ [line]) last p cb st h) post.
Proof.
  intros Hline. revert last p st h.
  induction pre as [|l pre IH]; intros last p st h.
  - rewrite !app_nil_l, !scanLoop_cons, (parse_progress_end _ _ _ Hline).
    destruct cb as [f|]; [destruct (f st (set_Done true p) h) as [st1 [e|]] |]; done.
  - rewrite <- !app_comm_cons, !scanLoop_cons.
    assert (Hpost : ((pre ++ [line]) ++ post = pre ++ line :: post)%list)
      by (by rewrite <- app_assoc).
    destruct (parseProgressLine l p h) as [p1 h1].
    destruct cb as [f|].
    + destruct (f st p1 h1) as [st1 [e|]].
      { unfold with_unread. simpl. by rewrite Hpost. }
      destruct (Done p1); [| apply IH].
      unfold with_unread. simpl. by rewrite Hpost.
    + destruct (Done p1); [| apply IH].
      unfold with_unread. simpl. by rewrite Hpost.
Qed.

(** A scan over lines that hold the end marker ends cancelled or done. *)
Lemma scanLoop_done_unless_cancelled {S : Type} pre line post last p
    (cb : option (sink S)) st h :
  TrimSpace line = "progress=end" ->
  sc_cancelled (scanLoop (pre ++ line :: post) last p cb st h) = false ->
  Done (sc_last (scanLoop (pre ++ line :: post) last p cb st h)) = true.
Proof.
  intros Hline. revert last p st h.
  induction pre as [|l pre IH]; intros last p st h.
  - rewrite !app_nil_l, !scanLoop_cons, (parse_progress_end _ _ _ Hline).
    destruct cb as [f|]; [destruct (f st (set_Done true p) h) as [st1 [e|]] |]; done.
  - rewrite <- !app_comm_cons, !scanLoop_cons.
    destruct (parseProgressLine l p h) as [p1 h1].
    destruct cb as [f|].
    + destruct (f st p1 h1) as [st1 [e|]]; [done |].
      destruct (Done p1) eqn:Hd; [done | apply IH].
    + destruct (Done p1) eqn:Hd; [done | apply IH].
Qed.

(** What a scan returns is the fold of the lines it read. *)
Lemma scanLoop_is_fold {S : Type} lines last p (cb : option (sink S)) st h :
  let r := scanLoop lines last p cb st h in
  exists used,
    lines = (used ++ sc_unread r)%list
    /\ decodeLines used p h
       = (match used with [] => p | _ => sc_last r end, sc_store r)
    /\ (used = [] -> sc_last r = last).
Proof.
  revert last p st h. induction lines as [|l lines IH]; intros last p st h; cbv zeta.
  - by exists [].
  - rewrite scanLoop_cons. simpl decodeLines.
    destruct (parseProgressLine l p h) as [p1 h1] eqn:Hp.
    assert (Hone : decodeLines [l] p h = (p1, h1)) by (simpl; by rewrite Hp).
    destruct cb as [f|].
    + destruct (f st p1 h1) as [st1 [e|]].
      { exists [l]. by rewrite Hone. }
      destruct (Done p1).
      { exists [l]. by rewrite Hone. }
      destruct (IH p1 p1 st1 h1) as (used & Hl & Hd & Hu).
      exists (l :: used). split; [by rewrite Hl at 1 |]. split; [| done].
      simpl. rewrite Hp, Hd. destruct used; [| done].
      by rewrite Hu.
    + destruct (Done p1).
      { exists [l]. by rewrite Hone. }
      destruct (IH p1 p1 st h1) as (used & Hl & Hd & Hu).
      exists (l :: used). split; [by rewrite Hl at 1 |]. split; [| done].
      simpl. rewrite Hp, Hd. destruct used; [| done].
      by rewrite Hu.
Qed.

Lemma decodeLines_app pre post p h :
  decodeLines (pre ++ post) p h
  = let '(p1, h1) := decodeLines pre p h in decodeLines post p1 h1.
Proof.
  revert p h. induction pre as [|l pre IH]; intros p h; [by destruct (decodeLines post p h) |].
  simpl. destruct (parseProgressLine l p h) as [p1 h1]. apply IH.
Qed.

(** C5: in one call of [scanProgress], a line that reads [progress=end]
    ends the reading: the lines behind it are left unread, and the result is
    the one of the lines up to it, which is the fold of the lines that were
    read.  The returned snapshot has [Done] set whenever that line was read,
    and whenever the sink did not cancel the scan. *)
Theorem progress_end_stops_the_scan {S : Type} pre line post last
    (cb : option (sink S)) st h :
  TrimSpace line = "progress=end" ->
  let r := scanProgress (pre ++ line :: post) last cb st h in
  r = with_unread (scanProgress (pre ++ [line]) last cb st h) post
  /\ (sc_cancelled r = false -> Done (sc_last r) = true)
  /\ (sc_unread r = post -> Done (sc_last r) = true)
  /\ exists used unread,
       (pre ++ [line])%list = (used ++ unread)%list
       /\ sc_unread r = (unread ++ post)%list
       /\ (used <> [] -> (sc_last r, sc_store r) = decodeLines used zero h).
Proof.
  intros Hline r.
  assert (Hr : r = with_unread (scanProgress (pre ++ [line]) last cb st h) post)
    by (by apply scanLoop_stops_at_end).
  destruct (scanLoop_is_fold (pre ++ [line]) last zero cb st h) as (used & Hl & Hd & _).
  split; [done |]. split; [by apply scanLoop_done_unless_cancelled |]. split.
  - rewrite Hr. simpl. intros Hpost.
    apply (app_inv_tail post _ []) in Hpost.
    unfold scanProgress in Hpost. rewrite Hpost, app_nil_r in Hl. subst used.
    rewrite decodeLines_app in Hd. destruct (decodeLines pre zero h) as [p1 h1].
    simpl in Hd. rewrite (parse_progress_end line p1 h1 Hline) in Hd.
    assert (Hlast : sc_last (scanLoop (pre ++ [line]) last zero cb st h) = set_Done true p1)
      by (destruct pre; cbn [app] in Hd; by injection Hd as -> _).
    unfold scanProgress. by rewrite Hlast.
  - exists used, (sc_unread (scanProgress (pre ++ [line]) last cb st h)).
    split; [done |]. rewrite Hr. split; [done |].
    intros Hne. simpl. unfold scanProgress. rewrite Hd. by destruct used.
Qed.

(** C10: [applyKV] does not latch [Done]: the key [progress] overwrites it
    with whether the value is [end], so [progress=continue] after
    [progress=end] leaves it false; [scanProgress] returns it true on the
    same two lines, because it stops at the first and leaves the second
    unread. *)
Theorem done_is_overwritten_not_latched {S : Type} p h last (cb : option (sink S)) st :
  (forall v, Done (applyKV "progress" v p h).1 = String.eqb v "end")
  /\ Done (applyKV "progress" "continue" (applyKV "progress" "end" p h).1 h).1 = false
  /\ Done (decodeLines ["progress=end"; "progress=continue"] p h).1 = false
  /\ Done (sc_last (scanProgress ["progress=end"; "progress=continue"] last cb st h)) = true
  /\ sc_unread (scanProgress ["progress=end"; "progress=continue"] last cb st h)
     = ["progress=continue"].
Proof.
  split; [by intros v; rewrite applyKV_progress |].
  split; [done |]. split; [done |].
  unfold scanProgress. rewrite scanLoop_cons.
  rewrite (parse_progress_end "progress=end") by done.
  destruct cb as [f|]; [destruct (f st (set_Done true zero) h) as [st1 [e|]] |]; done.
Qed.

(** *** The decoder does not depend on the store *)

Lemma observe_applyKV k v p h :
  wf_progress h p ->
  let '(p1, h1) := applyKV k v p h in
  wf_progress h1 p1 /\ observe h1 p1 = fold_kv k v (observe h p).
Proof.
  intros Hwf. unfold applyKV, fold_kv.
  repeat (match goal with |- context [if ?b then _ else _] => destruct b end;
          [try done; repeat case_match; simplify_eq; done |]).
  unfold wf_progress, observe in *. destruct p as [fr fp br sp ot dn [m|]]; simpl in *.
  - rewrite length_alter. split; [done |]. f_equal.
    rewrite list_lookup_alter_eq.
    destruct (lookup_lt_is_Some_2 h m Hwf) as [x ->]. done.
  - rewrite length_alter, length_app. simpl. split; [lia |]. f_equal.
    rewrite list_lookup_alter_eq, lookup_app_r by lia.
    by rewrite Nat.sub_diag.
Qed.

Lemma observe_parseProgressLine line p h :
  wf_progress h p ->
  let '(p1, h1) := parseProgressLine line p h in
  wf_progress h1 p1 /\ observe h1 p1 = fold_line line (observe h p).
Proof.
  intros Hwf. unfold parseProgressLine, fold_line.
  destruct (String.eqb _ _); [done |].
  destruct (_ <=? _); [done |].
  by apply observe_applyKV.
Qed.

(** The decoder over the store refines the fold over values. *)
Lemma observe_decodeLines lines p h :
  wf_progress h p ->
  let '(p1, h1) := decodeLines lines p h in
  wf_progress h1 p1 /\ observe h1 p1 = fold_lines lines (observe h p).
Proof.
  revert p h. induction lines as [|l lines IH]; intros p h Hwf; [done |].
  simpl. pose proof (observe_parseProgressLine l p h Hwf) as Hl.
  destruct (parseProgressLine l p h) as [p1 h1]. destruct Hl as [Hwf1 <-].
  by apply IH.
Qed.

Lemma observe_zero h : observe h zero = zero_snapshot.
Proof. reflexivity. Qed.

(** C7: the same lines folded into two fresh decoders give the same
    snapshot, whatever the two stores of maps hold at the start: every
    field, and the contents of [Extra], are equal (and equal to the fold
    over values). *)
Theorem decode_is_deterministic lines h1 h2 :
  let '(p1, h1') := decodeLines lines zero h1 in
  let '(p2, h2') := decodeLines lines zero h2 in
  observe h1' p1 = observe h2' p2
  /\ observe h1' p1 = fold_lines lines zero_snapshot.
Proof.
  pose proof (observe_decodeLines lines zero h1 I) as Ha.
  pose proof (observe_decodeLines lines zero h2 I) as Hb.
  destruct (decodeLines lines zero h1) as [p1 h1'].
  destruct (decodeLines lines zero h2) as [p2 h2'].
  destruct Ha as [_ ->], Hb as [_ ->]. by rewrite !observe_zero.
Qed.

End ProgressFacts.

Lemma malformed_numeric_value_is_dropped_witness :
  @Progress.malformed_numeric demo_platform "frame" "abc"
  /\ @Progress.applyKV demo_platform "frame" "abc" Progress.zero [] = (Progress.zero, []).
Proof.
  assert (Hbad : @Progress.malformed_numeric demo_platform "frame" "abc")
    by (left; split; reflexivity).
  split; [exact Hbad |].
  exact (proj1 (@malformed_numeric_value_is_dropped demo_platform "frame" "abc"
                  Progress.zero [] Hbad)).
Defined.

Lemma progress_end_stops_the_scan_witness :
  GoStrings.TrimSpace " progress=end " = "progress=end"
  /\ @Progress.sc_unread demo_platform unit
       (@Progress.scanProgress demo_platform unit
          ["frame=7"; " progress=end "; "frame=8"] Progress.zero None tt [])
     = ["frame=8"].
Proof.
  assert (Hline : GoStrings.TrimSpace " progress=end " = "progress=end") by reflexivity.
  split; [exact Hline |].
  pose proof (@progress_end_stops_the_scan demo_platform unit ["frame=7"]
                " progress=end " ["frame=8"] Progress.zero None tt [] Hline) as Hstop.
  cbv zeta in Hstop. destruct Hstop as [Heq _].
  simpl app in Heq. rewrite Heq. reflexivity.
Defined.


(** ** The argument builder *)

Section CommandFacts.
Import GoStrings GoStrconv Command Tool Run.
Context `{GoPlatform}.
Local Open Scope list_scope.

(** *** Writes go to the slice's own array or to a new one *)

Lemma append_frame s xs h o :
  ptr s <> Some o -> (o < length h)%nat ->
  let '(s1, h1) := append s xs h in
  h1 !! o = h !! o /\ ptr s1 <> Some o /\ (length h <= length h1)%nat.
Proof.
  intros Hne Ho. unfold append.
  destruct (_ <=? _)%nat.
  - destruct (ptr s) as [a|] eqn:Ha; [| by rewrite Ha].
    simpl. rewrite length_alter. split; [| done].
    apply list_lookup_alter_ne. congruence.
  - simpl. rewrite length_app. split; [by apply lookup_app_l |].
    split; [intros [= Heq] |]; lia.
Qed.

Lemma make_frame n c h o :
  (o < length h)%nat ->
  let '(s1, h1) := make n c h in
  h1 !! o = h !! o /\ ptr s1 <> Some o /\ (length h <= length h1)%nat.
Proof.
  intros Ho. unfold make. simpl. rewrite length_app.
  split; [by apply lookup_app_l |]. split; [intros [= Heq] |]; lia.
Qed.

Lemma overwrite_loop_frame src k i n h o :
  ptr n <> Some o -> (o < length h)%nat ->
  let '(n1, h1) := overwrite_loop src i k n h in
  h1 !! o = h !! o /\ ptr n1 <> Some o /\ (length h <= length h1)%nat.
Proof.
  revert i n h. induction k as [|k IH]; intros i n h Hne Ho; [done |].
  simpl. destruct (String.eqb _ _); [by apply IH |].
  pose proof (append_frame n [index h src i] h o Hne Ho) as Ha.
  destruct (append n [index h src i] h) as [n1 h1].
  destruct Ha as (Hl & Hn1 & Hlen).
  specialize (IH (S i) n1 h1 Hn1 ltac:(lia)).
  destruct (overwrite_loop src (S i) k n1 h1) as [n2 h2].
  destruct IH as (Hl2 & Hn2 & Hlen2). rewrite Hl2, Hl. split; [done |]. split; [done | lia].
Qed.

Lemma AppendArgs_frame xs c h o :
  ptr (args c) <> Some o -> (o < length h)%nat ->
  let '(c1, h1) := AppendArgs xs c h in
  h1 !! o = h !! o /\ ptr (args c1) <> Some o /\ (length h <= length h1)%nat.
Proof.
  intros Hne Ho. unfold AppendArgs.
  pose proof (append_frame (args c) xs h o Hne Ho) as Ha.
  by destruct (append (args c) xs h) as [s1 h1].
Qed.

Lemma Overwrite_frame on c h o :
  ptr (args c) <> Some o -> (o < length h)%nat ->
  let '(c1, h1) := Overwrite on c h in
  h1 !! o = h !! o /\ ptr (args c1) <> Some o /\ (length h <= length h1)%nat.
Proof.
  intros Hne Ho. unfold Overwrite. destruct on; [done |].
  pose proof (make_frame 0 (slen (args c)) h o Ho) as Hm.
  destruct (make 0 (slen (args c)) h) as [n0 h0]. destruct Hm as (Hl0 & Hn0 & Hlen0).
  pose proof (overwrite_loop_frame (args c) (slen (args c)) 0 n0 h0 o Hn0 ltac:(lia)) as Hloop.
  destruct (overwrite_loop (args c) 0 (slen (args c)) n0 h0) as [n h1].
  destruct Hloop as (Hl1 & Hn1 & Hlen1).
  pose proof (AppendArgs_frame ["-n"] (mkCommand n) h1 o Hn1 ltac:(lia)) as Ha.
  destruct (AppendArgs ["-n"] (mkCommand n) h1) as [c2 h2].
  destruct Ha as (Hl2 & Hn2 & Hlen2). rewrite Hl2, Hl1, Hl0. split; [done |]. split; [done | lia].
Qed.

(** Every method that changes the builder leaves the other arrays alone. *)
Lemma call_frame m c h o :
  ptr (args c) <> Some o -> (o < length h)%nat ->
  let '(c1, h1) := call m c h in
  h1 !! o = h !! o /\ ptr (args c1) <> Some o /\ (length h <= length h1)%nat.
Proof.
  intros Hne Ho.
  destruct m; simpl; try (by apply AppendArgs_frame); by apply Overwrite_frame.
Qed.

Lemma calls_frame ms c h o :
  ptr (args c) <> Some o -> (o < length h)%nat ->
  let '(c1, h1) := calls ms c h in
  h1 !! o = h !! o /\ ptr (args c1) <> Some o /\ (length h <= length h1)%nat.
Proof.
  revert c h. induction ms as [|m ms IH]; intros c h Hne Ho; [done |].
  simpl. pose proof (call_frame m c h o Hne Ho) as Hm.
  destruct (call m c h) as [c1 h1]. destruct Hm as (Hl & Hn & Hlen).
  specialize (IH c1 h1 Hn ltac:(lia)).
  destruct (calls ms c1 h1) as [c2 h2]. destruct IH as (Hl2 & Hn2 & Hlen2).
  rewrite Hl2, Hl. split; [done |]. split; [done | lia].
Qed.


(** *** What the slices hold *)

Lemma backing_lookup h s a :
  ptr s = Some a -> (a < length h)%nat -> h !! a = Some (backing h s).
Proof.
  intros Ha Hlt. unfold backing. rewrite Ha.
  by destruct (lookup_lt_is_Some_2 h a Hlt) as [arr ->].
Qed.

Lemma elems_length h s : wf_slice h s -> length (elems h s) = slen s.
Proof.
  unfold wf_slice, elems. destruct (ptr s) as [a|] eqn:Ha.
  - intros (_ & Hlen & Hle). rewrite length_take. lia.
  - intros [-> _]. by rewrite take_0.
Qed.

(** A slice keeps its array, and stays well formed, when its array is not
    written and the store only grows. *)
Lemma wf_slice_frame h h1 s :
  wf_slice h s ->
  (forall a, ptr s = Some a -> h1 !! a = h !! a) ->
  (length h <= length h1)%nat ->
  wf_slice h1 s /\ backing h1 s = backing h s.
Proof.
  unfold wf_slice, backing. destruct (ptr s) as [a|]; [| done].
  intros (Hlt & Hlen & Hle) Hsame Hgrow. rewrite (Hsame a eq_refl).
  split; [| done]. split; [lia | done].
Qed.

Lemma append_spec s xs h :
  wf_slice h s ->
  let '(s1, h1) := append s xs h in
  wf_slice h1 s1 /\ elems h1 s1 = (elems h s ++ xs)%list.
Proof.
  intros Hwf. pose proof (elems_length h s Hwf) as Hel. unfold append.
  destruct (Nat.leb_spec (slen s + length xs) (scap s)) as [Hfit | Hgrow].
  - destruct (ptr s) as [a|] eqn:Ha.
    + unfold wf_slice in Hwf. rewrite Ha in Hwf. destruct Hwf as (Hlt & Hlen & Hle).
      pose proof (backing_lookup h s a Ha Hlt) as Harr.
      set (arr := backing h s) in *.
      assert (Hnew : backing (alter (fun arr0 => (take (slen s) arr0 ++ xs
                        ++ drop (slen s + length xs) arr0)%list) a h)
                       (mkSlice (Some a) (slen s + length xs) (scap s))
                     = (take (slen s) arr ++ xs ++ drop (slen s + length xs) arr)%list).
      { unfold backing. simpl. by rewrite list_lookup_alter_eq, Harr. }
      split.
      * unfold wf_slice. simpl. rewrite length_alter. split; [done |].
        rewrite Hnew, !length_app, length_take, length_drop. simpl. lia.
      * unfold elems at 1. rewrite Hnew. simpl. rewrite app_assoc.
        rewrite take_app_length' by (rewrite length_app, length_take; lia).
        done.
    + unfold wf_slice in Hwf. rewrite Ha in Hwf. destruct Hwf as [Hl Hc].
      assert (xs = []) as -> by (destruct xs; [done | simpl in Hfit; lia]).
      split; [by unfold wf_slice; rewrite Ha |]. by rewrite app_nil_r.
  - pose proof (growcap_enough (scap s) (slen s + length xs)) as Hcap.
    set (c := growcap (scap s) (slen s + length xs)) in *.
    assert (Hnew : backing (h ++ [elems h s ++ xs ++ replicate (c - (slen s + length xs)) ""])
                     (mkSlice (Some (length h)) (slen s + length xs) c)
                   = (elems h s ++ xs ++ replicate (c - (slen s + length xs)) "")%list).
    { unfold backing. simpl. rewrite lookup_app_r, Nat.sub_diag by lia. done. }
    split.
    + unfold wf_slice. simpl. rewrite length_app. simpl. split; [lia |].
      rewrite Hnew, !length_app, length_replicate, Hel. lia.
    + unfold elems at 1. rewrite Hnew. simpl. rewrite app_assoc.
      by rewrite take_app_length' by (rewrite length_app; lia).
Qed.

(** A slice with another array is as it was after [append]. *)
Lemma append_other s xs h s2 :
  wf_slice h s2 -> ptr s2 <> ptr s ->
  let '(s1, h1) := append s xs h in
  wf_slice h1 s2 /\ backing h1 s2 = backing h s2 /\ ptr s1 <> ptr s2.
Proof.
  intros Hwf Hne. destruct (ptr s2) as [o|] eqn:Ho.
  - assert (Hlt : (o < length h)%nat).
    { unfold wf_slice in Hwf. rewrite Ho in Hwf. tauto. }
    pose proof (append_frame s xs h o ltac:(congruence) Hlt) as Hf.
    destruct (append s xs h) as [s1 h1]. destruct Hf as (Hl & Hn & Hlen).
    destruct (wf_slice_frame h h1 s2 Hwf) as [Hwf1 Hb]; [| done | done].
    intros a Ha. congruence.
  - unfold append. destruct (_ <=? _)%nat.
    + destruct (ptr s) as [a|] eqn:Ha; [| done].
      simpl. unfold wf_slice, backing in *. by rewrite Ho in *.
    + simpl. unfold wf_slice, backing in *. by rewrite Ho in *.
Qed.

Lemma index_elems h s i :
  wf_slice h s -> (i < slen s)%nat -> elems h s !! i = Some (index h s i).
Proof.
  intros Hwf Hi. unfold elems, index. rewrite lookup_take_lt by done.
  unfold wf_slice in Hwf. destruct (ptr s) as [a|] eqn:Ha; [| lia].
  destruct Hwf as (_ & Hlen & Hle).
  by destruct (lookup_lt_is_Some_2 (backing h s) i ltac:(lia)) as [x ->].
Qed.

(** The loop of [Overwrite] appends to [n] the elements of [src] from [i]
    on that are not ["-y"], and leaves [src] as it is. *)
Lemma overwrite_loop_spec src k i n h :
  wf_slice h src -> wf_slice h n -> ptr src <> ptr n -> (i + k = slen src)%nat ->
  let '(n1, h1) := overwrite_loop src i k n h in
  wf_slice h1 n1
  /\ elems h1 n1 = (elems h n ++ filter (fun a => a <> "-y") (drop i (elems h src)))%list.
Proof.
  revert i n h. induction k as [|k IH]; intros i n h Hsrc Hn Hne Hik.
  - simpl. split; [done |].
    rewrite drop_ge by (rewrite elems_length by done; lia). by rewrite app_nil_r.
  - simpl.
    pose proof (index_elems h src i Hsrc ltac:(lia)) as Hi.
    rewrite (drop_S _ _ _ Hi). rewrite filter_cons.
    destruct (String.eqb_spec (index h src i) "-y") as [Heq | Hneq].
    + rewrite decide_False by (intros Hc; by apply Hc).
      apply IH; [done | done | done | lia].
    + rewrite decide_True by done.
      pose proof (append_spec n [index h src i] h Hn) as Ha.
      pose proof (append_other n [index h src i] h src Hsrc Hne) as Ho.
      destruct (append n [index h src i] h) as [n1 h1].
      destruct Ha as [Hwf1 He1]. destruct Ho as (Hsrc1 & Hb & Hne1).
      specialize (IH (S i) n1 h1 Hsrc1 Hwf1 ltac:(congruence) ltac:(lia)).
      destruct (overwrite_loop src (S i) k n1 h1) as [n2 h2].
      destruct IH as [Hwf2 He2]. split; [done |].
      rewrite He2, He1.
      assert (Hsame : elems h1 src = elems h src) by (unfold elems; by rewrite Hb).
      by rewrite Hsame, <- app_assoc.
Qed.


Lemma literal_spec xs h :
  let '(s, h1) := literal xs h in
  wf_slice h1 s /\ elems h1 s = xs.
Proof.
  unfold literal, wf_slice, elems, backing. simpl.
  rewrite length_app, lookup_app_r, Nat.sub_diag by lia. simpl.
  split; [split; [lia | done] |]. by rewrite firstn_all.
Qed.

Lemma make_spec n c h :
  (n <= c)%nat ->
  let '(s, h1) := make n c h in
  wf_slice h1 s /\ backing h1 s = replicate c "" /\ ptr s = Some (length h)
  /\ h1 = h ++ [replicate c ""].
Proof.
  intros Hle. unfold make, wf_slice, backing. simpl.
  rewrite length_app, lookup_app_r, Nat.sub_diag by lia. simpl.
  rewrite length_replicate. repeat split; (lia || done).
Qed.

(** A well formed slice does not point at the next array to be made. *)
Lemma wf_slice_not_fresh h s : wf_slice h s -> ptr s <> Some (length h).
Proof.
  unfold wf_slice. destruct (ptr s) as [a|]; [| done].
  intros (Hlt & _) [= ->]. lia.
Qed.

Lemma wf_slice_grow h arr s :
  wf_slice h s -> wf_slice (h ++ [arr]) s /\ backing (h ++ [arr]) s = backing h s.
Proof.
  intros Hwf. apply wf_slice_frame; [done | | rewrite length_app; lia].
  intros a Ha. apply lookup_app_l. unfold wf_slice in Hwf. rewrite Ha in Hwf. tauto.
Qed.

(** [Args] makes an array of its own and fills it with the elements. *)
Lemma Args_spec c h :
  wf_slice h (args c) ->
  let '(out, h1) := Args c h in
  wf_slice h1 out /\ elems h1 out = elems h (args c)
  /\ wf_slice h1 (args c) /\ elems h1 (args c) = elems h (args c)
  /\ ptr (args c) <> ptr out.
Proof.
  intros Hwf. unfold Args.
  pose proof (make_spec (slen (args c)) (slen (args c)) h ltac:(lia)) as Hm.
  destruct (make (slen (args c)) (slen (args c)) h) as [out h0] eqn:Hmk.
  destruct Hm as (Hwf0 & Hb0 & Hp0 & ->).
  assert (Hout : out = mkSlice (Some (length h)) (slen (args c)) (slen (args c)))
    by (unfold make in Hmk; congruence).
  destruct (wf_slice_grow h (replicate (slen (args c)) "") (args c) Hwf) as [Hwfc Hbc].
  pose proof (wf_slice_not_fresh h (args c) Hwf) as Hfresh.
  pose proof (elems_length h (args c) Hwf) as Hel.
  assert (Helc : elems (h ++ [replicate (slen (args c)) ""]) (args c) = elems h (args c))
    by (unfold elems; by rewrite Hbc).
  set (h0 := h ++ [replicate (slen (args c)) ""]) in *.
  unfold copy. rewrite Hp0, Helc. subst out. simpl. rewrite Nat.min_id.
  set (h1 := alter _ _ h0).
  assert (Hlen1 : length h1 = length h0) by apply length_alter.
  assert (Hnew : h1 !! length h = Some (elems h (args c))).
  { subst h1 h0. rewrite list_lookup_alter_eq, lookup_app_r, Nat.sub_diag by lia. simpl.
    rewrite take_ge by lia. rewrite drop_ge by (rewrite length_replicate; lia).
    by rewrite app_nil_r. }
  assert (Hold : forall a, ptr (args c) = Some a -> h1 !! a = h0 !! a).
  { intros a Ha. subst h1. apply list_lookup_alter_ne. congruence. }
  destruct (wf_slice_frame h0 h1 (args c) Hwfc Hold ltac:(lia)) as [Hwfc1 Hbc1].
  assert (Hlen0 : length h0 = S (length h)) by (subst h0; rewrite length_app; simpl; lia).
  split; [| split; [| split; [done | split; [| done]]]].
  - unfold wf_slice, backing. simpl. rewrite Hnew. simpl.
    rewrite Hel. split; [lia | done].
  - unfold elems at 1. unfold backing. simpl. rewrite Hnew. simpl.
    by rewrite take_ge by lia.
  - unfold elems. by rewrite Hbc1, Hbc.
Qed.

Lemma AppendArgs_spec xs c h :
  wf_slice h (args c) ->
  let '(c1, h1) := AppendArgs xs c h in
  wf_slice h1 (args c1) /\ elems h1 (args c1) = elems h (args c) ++ xs.
Proof.
  intros Hwf. unfold AppendArgs. pose proof (append_spec (args c) xs h Hwf) as Ha.
  by destruct (append (args c) xs h) as [s1 h1].
Qed.

Lemma Overwrite_false_spec c h :
  wf_slice h (args c) ->
  let '(c1, h1) := Overwrite false c h in
  wf_slice h1 (args c1) /\ elems h1 (args c1) = without_y (elems h (args c)) ++ ["-n"].
Proof.
  intros Hwf. unfold Overwrite.
  pose proof (make_spec 0 (slen (args c)) h ltac:(lia)) as Hm.
  destruct (make 0 (slen (args c)) h) as [n0 h0] eqn:Hmk.
  destruct Hm as (Hwf0 & Hb0 & Hp0 & ->).
  assert (Hn0 : slen n0 = 0%nat) by (unfold make in Hmk; by simplify_eq).
  destruct (wf_slice_grow h (replicate (slen (args c)) "") (args c) Hwf) as [Hwfc Hbc].
  pose proof (wf_slice_not_fresh h (args c) Hwf) as Hfresh.
  pose proof (overwrite_loop_spec (args c) (slen (args c)) 0 n0 _ Hwfc Hwf0
                ltac:(congruence) ltac:(lia)) as Hloop.
  destruct (overwrite_loop (args c) 0 (slen (args c)) n0 _) as [n h1].
  destruct Hloop as [Hwfn Hen].
  pose proof (AppendArgs_spec ["-n"] (mkCommand n) h1 Hwfn) as Ha.
  destruct (AppendArgs ["-n"] (mkCommand n) h1) as [c2 h2].
  destruct Ha as [Hwf2 He2]. split; [done |]. rewrite He2. simpl. rewrite Hen.
  unfold elems at 1. rewrite Hn0, take_0. simpl. rewrite drop_0.
  unfold without_y, elems. by rewrite Hbc.
Qed.

(** The builder over the store refines the builder on lists. *)
Lemma call_spec m c h :
  wf_slice h (args c) ->
  let '(c1, h1) := call m c h in
  wf_slice h1 (args c1) /\ elems h1 (args c1) = list_call m (elems h (args c)).
Proof.
  intros Hwf.
  destruct m as [| | | |[|]| | | | | | | | | | | | |]; simpl;
    try (by apply AppendArgs_spec).
  - by rewrite app_nil_r.
  - by apply Overwrite_false_spec.
Qed.

Lemma calls_spec ms c h :
  wf_slice h (args c) ->
  let '(c1, h1) := calls ms c h in
  wf_slice h1 (args c1) /\ elems h1 (args c1) = list_calls ms (elems h (args c)).
Proof.
  revert c h. induction ms as [|m ms IH]; intros c h Hwf; [done |].
  simpl. pose proof (call_spec m c h Hwf) as Hm.
  destruct (call m c h) as [c1 h1]. destruct Hm as [Hwf1 He1].
  specialize (IH c1 h1 Hwf1). destruct (calls ms c1 h1) as [c2 h2].
  by rewrite <- He1.
Qed.

(** A slice with an array of its own keeps its elements through every chain
    of calls on the builder. *)
Lemma calls_keep ms c h s :
  wf_slice h s -> ptr (args c) <> ptr s ->
  let '(c1, h1) := calls ms c h in elems h1 s = elems h s.
Proof.
  intros Hwf Hne. destruct (ptr s) as [o|] eqn:Ho.
  - assert (Hlt : (o < length h)%nat).
    { unfold wf_slice in Hwf. rewrite Ho in Hwf. tauto. }
    pose proof (calls_frame ms c h o Hne Hlt) as Hf.
    destruct (calls ms c h) as [c1 h1]. destruct Hf as (Hl & _).
    unfold elems, backing. by rewrite Ho, Hl.
  - destruct (calls ms c h) as [c1 h1]. unfold elems, backing. by rewrite Ho.
Qed.

Lemma launch_args_spec c progress h :
  wf_slice h (args c) ->
  let '(argv, h1) := launch_args c progress h in
  wf_slice h1 argv
  /\ elems h1 argv
     = elems h (args c) ++ (if progress then ["-progress"; "pipe:1"; "-nostats"] else [])
  /\ wf_slice h1 (args c) /\ elems h1 (args c) = elems h (args c)
  /\ ptr (args c) <> ptr argv.
Proof.
  intros Hwf. unfold launch_args. pose proof (Args_spec c h Hwf) as Ha.
  destruct (Args c h) as [out h0]. destruct Ha as (Hwfo & Heo & Hwfc & Hec & Hne).
  destruct progress; [| by rewrite app_nil_r].
  pose proof (append_spec out ["-progress"; "pipe:1"; "-nostats"] h0 Hwfo) as Hs.
  pose proof (append_other out ["-progress"; "pipe:1"; "-nostats"] h0 (args c) Hwfc Hne) as Ho.
  destruct (append out _ h0) as [argv h1].
  destruct Hs as [Hwfa Hea]. destruct Ho as (Hwfc1 & Hbc1 & Hne1).
  rewrite Hea, Heo. repeat split; try done.
  unfold elems. rewrite Hbc1. exact Hec.
Qed.

(** C8: the vector returned by [Args] is a snapshot of the builder's
    arguments, and so is the vector [RunWithProgress] launches with (that
    copy plus the progress flags): whatever calls change the builder
    afterwards, both vectors hold what they held. *)
Theorem Args_is_an_independent_snapshot c h ms progress :
  wf_slice h (args c) ->
  (let '(out, h1) := Args c h in
   let '(c2, h2) := calls ms c h1 in
   elems h1 out = elems h (args c)
   /\ elems h2 out = elems h (args c)
   /\ elems h2 (args c2) = list_calls ms (elems h (args c)))
  /\ (let '(argv, h1) := launch_args c progress h in
      let '(c2, h2) := calls ms c h1 in
      elems h2 argv = elems h1 argv
      /\ elems h1 argv
         = elems h (args c)
           ++ (if progress then ["-progress"; "pipe:1"; "-nostats"] else [])).
Proof.
  intros Hwf. split.
  - pose proof (Args_spec c h Hwf) as Ha.
    destruct (Args c h) as [out h1]. destruct Ha as (Hwfo & Heo & Hwfc & Hec & Hne).
    pose proof (calls_keep ms c h1 out Hwfo Hne) as Hk.
    pose proof (calls_spec ms c h1 Hwfc) as Hs.
    destruct (calls ms c h1) as [c2 h2]. destruct Hs as [_ Hs].
    split; [done |]. split; [congruence |]. by rewrite Hs, Hec.
  - pose proof (launch_args_spec c progress h Hwf) as Ha.
    destruct (launch_args c progress h) as [argv h1].
    destruct Ha as (Hwfa & Hea & Hwfc & Hec & Hne).
    pose proof (calls_keep ms c h1 argv Hwfa Hne) as Hk.
    by destruct (calls ms c h1) as [c2 h2].
Qed.

Lemma NewFFmpegCommand_spec h :
  let '(c, h1) := NewFFmpegCommand h in
  wf_slice h1 (args c) /\ elems h1 (args c) = ["-y"].
Proof.
  unfold NewFFmpegCommand. pose proof (literal_spec ["-y"] h) as Hl.
  by destruct (literal ["-y"] h) as [s h1].
Qed.

(** Calls other than [Overwrite(false)] only add at the end. *)
Lemma list_calls_keep_head ms x l :
  Forall (fun m => m <> CallOverwrite false) ms ->
  exists rest, list_calls ms (x :: l) = x :: rest.
Proof.
  revert l. induction ms as [|m ms IH]; intros l Hms; [by exists l |].
  inversion Hms as [|m' ms' Hm Hrest]; subst.
  assert (Hcall : list_call m (x :: l) = x :: (l ++ tokens m)).
  { destruct m as [| | | |[|]| | | | | | | | | | | | |]; done. }
  unfold list_calls. simpl. rewrite Hcall. by apply IH.
Qed.

(** C9: a new command holds ["-y"], and its list still begins with ["-y"]
    after calls that are not [Overwrite(false)]; [Overwrite(true)] changes
    nothing; [Overwrite(false)] leaves the list without any ["-y"], in the
    same order, with ["-n"] added at the end. *)
Theorem Overwrite_toggles_the_default_flag c h h0 ms :
  wf_slice h (args c) ->
  Forall (fun m => m <> CallOverwrite false) ms ->
  (let '(c0, h1) := NewFFmpegCommand h0 in
   elems h1 (args c0) = ["-y"]
   /\ let '(c1, h2) := calls ms c0 h1 in
      exists rest, elems h2 (args c1) = "-y" :: rest)
  /\ Overwrite true c h = (c, h)
  /\ (let '(c1, h1) := Overwrite false c h in
      elems h1 (args c1) = filter (fun a => a <> "-y") (elems h (args c)) ++ ["-n"]
      /\ "-y" ∉ filter (fun a => a <> "-y") (elems h (args c))).
Proof.
  intros Hwf Hms. split; [| split; [done |]].
  - pose proof (NewFFmpegCommand_spec h0) as Hn.
    destruct (NewFFmpegCommand h0) as [c0 h1]. destruct Hn as [Hwf0 He0].
    split; [done |]. pose proof (calls_spec ms c0 h1 Hwf0) as Hs.
    destruct (calls ms c0 h1) as [c1 h2]. destruct Hs as [_ ->]. rewrite He0.
    by apply list_calls_keep_head.
  - pose proof (Overwrite_false_spec c h Hwf) as Ho.
    destruct (Overwrite false c h) as [c1 h1]. destruct Ho as [_ Ho].
    split; [done |]. rewrite list_elem_of_filter. tauto.
Qed.

End CommandFacts.

Lemma Args_is_an_independent_snapshot_witness :
  let c := Command.mkCommand (Command.mkSlice (Some 0%nat) 1 1) in
  let h := [["-y"]] in
  Command.wf_slice h (Command.args c)
  /\ (let '(out, h1) := Command.Args c h in
      let '(c2, h2) := @Command.calls demo_platform
                         [Command.CallOverwrite false; Command.CallInput "a.mp4"] c h1 in
      Command.elems h2 out = ["-y"]
      /\ Command.elems h2 (Command.args c2) = ["-n"; "-i"; "a.mp4"]).
Proof.
  intros c h.
  assert (Hwf : Command.wf_slice h (Command.args c)) by (cbv; lia).
  split; [exact Hwf |].
  pose proof (@Args_is_an_independent_snapshot demo_platform c h
                [Command.CallOverwrite false; Command.CallInput "a.mp4"] true Hwf)
    as [Hsnap _].
  destruct (Command.Args c h) as [out h1].
  destruct (Command.calls _ c h1) as [c2 h2].
  destruct Hsnap as (_ & Hout & Hc2). split; [exact Hout | exact Hc2].
Defined.

Lemma Overwrite_toggles_the_default_flag_witness :
  let c := Command.mkCommand (Command.mkSlice (Some 0%nat) 3 4) in
  let h := [["-y"; "out.mp4"; "-y"; ""]] in
  Command.wf_slice h (Command.args c)
  /\ (let '(c1, h1) := @Command.Overwrite demo_platform false c h in
      Command.elems h1 (Command.args c1) = ["out.mp4"; "-n"]).
Proof.
  intros c h.
  assert (Hwf : Command.wf_slice h (Command.args c)) by (cbv; lia).
  split; [exact Hwf |].
  pose proof (@Overwrite_toggles_the_default_flag demo_platform c h []
                [Command.CallHideBanner] Hwf
                ltac:(repeat constructor; discriminate)) as (_ & _ & Hoff).
  destruct (Command.Overwrite false c h) as [c1 h1].
  destruct Hoff as [Hoff _]. exact Hoff.
Defined.


(** ** The readiness check *)

Section ToolFacts.
Import GoStrings GoErrors Progress Command Tool Run Scenarios.
Context `{GoPlatform}.
Local Open Scope list_scope.


(** Every call leaves the tool checked. *)
Lemma ensureReady_checks k w t : checked (ensureReady k w t).1.2 = true.
Proof.
  unfold ensureReady. destruct (checked t) eqn:Hc; [by simpl |].
  destruct (LookPath w (lookup_path k t)) as [resolved | err]; [| by simpl].
  destruct (run_err (RunVersion w resolved (probe_deadline k t))) as [runErr|]; by simpl.
Qed.

(** On a checked tool the call is a read of the cache. *)
Lemma ensureReady_checked k w t :
  checked t = true -> ensureReady k w t = (checkErr t, t, []).
Proof. intros Hc. unfold ensureReady. by rewrite Hc. Qed.

Lemma ensureReady_each_checked k ws t :
  checked t = true ->
  ensureReady_each k ws t = (replicate (length ws) (checkErr t), t, []).
Proof.
  intros Hc. induction ws as [|w ws IH]; [done |].
  simpl. by rewrite (ensureReady_checked k w t Hc), IH.
Qed.

(** One caller at a time: the system is asked by the first call alone, so
    the path is resolved and the binary run at most once, and every call
    returns what the first returned. *)
Lemma sequential_calls_check_once k w ws t :
  let '(rs, t1, log) := ensureReady_each k (w :: ws) t in
  log = (ensureReady k w t).2
  /\ (length (filter (fun s => is_run s = true) log) <= 1)%nat
  /\ (length (filter (fun s => is_run s = false) log) <= 1)%nat
  /\ Forall (fun r => r = (ensureReady k w t).1.1) rs.
Proof.
  simpl. pose proof (ensureReady_checks k w t) as Hc.
  assert (Hres : (ensureReady k w t).1.1 = checkErr (ensureReady k w t).1.2).
  { unfold ensureReady. destruct (checked t) eqn:Hct; [by simpl |].
    destruct (LookPath w (lookup_path k t)) as [resolved | err]; [| by simpl].
    destruct (run_err (RunVersion w resolved (probe_deadline k t))) as [runErr|]; by simpl. }
  assert (Hlog : (length (filter (fun s => is_run s = true) (ensureReady k w t).2) <= 1
                  /\ length (filter (fun s => is_run s = false) (ensureReady k w t).2) <= 1)%nat).
  { unfold ensureReady. destruct (checked t) eqn:Hct; [by simpl; lia |].
    destruct (LookPath w (lookup_path k t)) as [resolved | err]; [| by simpl; lia].
    destruct (run_err (RunVersion w resolved (probe_deadline k t))) as [runErr|];
      simpl; lia. }
  destruct (ensureReady k w t) as [[r t1] log]. simpl in *.
  rewrite (ensureReady_each_checked k ws t1 Hc), app_nil_r.
  split; [done |]. split; [tauto |]. split; [tauto |].
  constructor; [done |]. rewrite Hres. apply Forall_replicate. done.
Qed.

(** *** Goroutines *)

(** One goroutine alone, from entry to return, does what [ensureReady]
    does. *)
Lemma alone_is_ensureReady k w t :
  exists n c,
    exec k (replicate n (0%nat, w)) (spawn t 1) = Some c
    /\ threads c = [Returned (ensureReady k w t).1.1]
    /\ tool c = (ensureReady k w t).1.2
    /\ reverse (syslog c) = (ensureReady k w t).2.
Proof.
  unfold ensureReady, spawn.
  destruct (checked t) eqn:Hc.
  { exists 1%nat. eexists. simpl. unfold step. simpl. rewrite Hc. done. }
  destruct (LookPath w (lookup_path k t)) as [resolved | err] eqn:Hl.
  - destruct (run_err (RunVersion w resolved (probe_deadline k t))) as [runErr|] eqn:Hr.
    + exists 4%nat. eexists. simpl. unfold step. simpl. rewrite Hc. simpl.
      rewrite Hl. simpl. rewrite Hr. simpl. done.
    + exists 4%nat. eexists. simpl. unfold step. simpl. rewrite Hc. simpl.
      rewrite Hl. simpl. rewrite Hr. simpl. done.
  - exists 4%nat. eexists. simpl. unfold step. simpl. rewrite Hc. simpl.
    rewrite Hl. simpl. done.
Qed.




(** C3 fails: two goroutines that enter [ensureReady] on a new tool can
    both pass the test of [checked]; the path is then resolved twice and
    the binary run twice, and the two callers return different results
    (here an error and nil). *)
Theorem concurrent_first_calls_check_twice (k : tool_kind) (t : Tool) :
  checked t = false ->
  exists c,
    exec k racing_schedule (spawn t 2) = Some c
    /\ runs c = 2%nat /\ lookups c = 2%nat
    /\ (exists e, threads c = [Returned (Some e); Returned None]).
Proof.
  intros Hc. destruct t as [path timeout chk resolved ver err].
  simpl in Hc. subst chk.
  eexists. split; [reflexivity |]. split; [reflexivity |]. split; [reflexivity |].
  eexists. reflexivity.
Qed.

End ToolFacts.


Lemma concurrent_first_calls_check_twice_witness :
  exists c,
    @Tool.exec demo_platform GoErrors.FFmpeg Scenarios.racing_schedule
      (Tool.spawn Tool.NewDefaultFFmpeg 2) = Some c
    /\ Tool.runs c = 2%nat.
Proof.
  destruct (@concurrent_first_calls_check_twice demo_platform GoErrors.FFmpeg
              Tool.NewDefaultFFmpeg eq_refl) as (c & Hex & Hruns & _).
  exists c. split; [exact Hex | exact Hruns].
Defined.


(** ** Running ffmpeg *)

Section RunFacts.
Import GoStrings GoErrors Progress Command Tool Run Scenarios.
Context `{GoPlatform}.

Lemma append_assoc (a b c : string) : (a +:+ b) +:+ c = a +:+ b +:+ c.
Proof. induction a as [|x a IH]; [done |]. by rewrite !append_cons, IH. Qed.

(** The tail of [RunWithProgress] once the subprocess was started. *)
Lemma RunWithProgress_launched {S : Type} env t cmd (cb : option (sink S)) st m a :
  launched env t ->
  let r := RunWithProgress env t cmd cb st m a in
  let sc := match cb with
            | Some _ => scanProgress (env_stdout env) zero cb st m
            | None => mkScanned zero st false [] m
            end in
  let ctx := ctx_done (env_ctx_late env)
               (if sc_cancelled sc then cancel (ctx_done (env_ctx_early env) None)
                else ctx_done (env_ctx_early env) None) in
  out_last r = sc_last sc
  /\ out_ctx r = ctx
  /\ out_err r = report (Timeout (out_tool r)) ctx (env_wait env) (env_stderr env).
Proof.
  intros (Hready & Hout & Herr & Hstart). cbv zeta. unfold RunWithProgress.
  destruct (ensureReady FFmpeg (env_world env) t) as [[r t1] log]. simpl in Hready. subst r.
  destruct (launch_args cmd _ a) as [args a1].
  by rewrite Hout, Herr, Hstart.
Qed.

Lemma report_carries_stderr timeout ctx werr stderrBuf :
  exists e, report timeout ctx (Some werr) stderrBuf = Some e
    /\ diagnostic e = TrimSpace stderrBuf
    /\ exists pre, Error e = pre +:+ "; stderr=" +:+ TrimSpace stderrBuf.
Proof.
  unfold report, trimSpace. destruct ctx as [[|]|].
  - eexists. split; [done |]. split; [done |]. simpl.
    exists ("ffmpeg timed out after " +:+ DurationString timeout).
    by rewrite append_assoc.
  - destruct (is_ExitError werr); eexists; (split; [done |]); (split; [done |]); simpl.
    + exists ("ffmpeg failed: " +:+ Error werr). by rewrite append_assoc.
    + exists ("ffmpeg exec error: " +:+ Error werr). by rewrite append_assoc.
  - destruct (is_ExitError werr); eexists; (split; [done |]); (split; [done |]); simpl.
    + exists ("ffmpeg failed: " +:+ Error werr). by rewrite append_assoc.
    + exists ("ffmpeg exec error: " +:+ Error werr). by rewrite append_assoc.
Qed.

(** C1, as the code has it: a failed run returns an error that carries the
    stderr output with the white space at its two ends removed, and all of
    it; the message ends with that text. *)
Theorem run_failure_carries_trimmed_stderr {S : Type} env t cmd
    (cb : option (sink S)) st m a :
  run_failed env t ->
  exists e,
    out_err (RunWithProgress env t cmd cb st m a) = Some e
    /\ diagnostic e = TrimSpace (env_stderr env)
    /\ exists pre, Error e = pre +:+ "; stderr=" +:+ TrimSpace (env_stderr env).
Proof.
  intros [Hl [werr Hw]].
  destruct (RunWithProgress_launched env t cmd cb st m a Hl) as (_ & _ & ->).
  rewrite Hw. apply report_carries_stderr.
Qed.

(** White space is trimmed off, nothing else: a text of [n] letters is kept
    whole. *)
Lemma TrimLeftSpace_x s : TrimLeftSpace (String "x" s) = String "x" s.
Proof. destruct s as [|b [|c s]]; reflexivity. Qed.

Lemma space2_x b : space2 b "x" = false.
Proof. unfold space2. simpl. apply andb_false_r. Qed.

Lemma space3_x c b : space3 c b "x" = false.
Proof.
  unfold space3. cbn -[N.eqb N.leb N_of_ascii].
  change (N_of_ascii "x") with 120%N. cbn.
  by rewrite !andb_false_r.
Qed.

Lemma TrimLeftSpaceRev_x s : TrimLeftSpaceRev (String "x" s) = String "x" s.
Proof.
  destruct s as [|b [|c s]]; [done | |].
  - cbn -[space2]. by rewrite space2_x.
  - cbn -[space2 space3]. by rewrite space2_x, space3_x.
Qed.

Lemma rev_onto_repeat c n acc :
  rev_onto (repeat_byte c n) acc = repeat_byte c n +:+ acc.
Proof.
  revert acc. induction n as [|n IH]; intros acc; [done |].
  simpl. rewrite IH. clear IH. induction n as [|n IH]; [done |].
  simpl. by rewrite !append_cons, IH.
Qed.

Lemma append_empty s : s +:+ "" = s.
Proof. induction s as [|a s IH]; [done |]. by rewrite append_cons, IH. Qed.

Lemma rev_repeat c n : rev (repeat_byte c n) = repeat_byte c n.
Proof. unfold rev. by rewrite rev_onto_repeat, append_empty. Qed.

Lemma TrimSpace_repeat_x n : TrimSpace (repeat_byte "x" n) = repeat_byte "x" n.
Proof.
  destruct n as [|n]; [done |].
  unfold TrimSpace, TrimRightSpace. change (repeat_byte "x" (S n)) with (String "x" (repeat_byte "x" n)).
  rewrite TrimLeftSpace_x. change (String "x" (repeat_byte "x" n)) with (repeat_byte "x" (S n)).
  rewrite rev_repeat. change (repeat_byte "x" (S n)) with (String "x" (repeat_byte "x" n)).
  rewrite TrimLeftSpaceRev_x. change (String "x" (repeat_byte "x" n)) with (repeat_byte "x" (S n)).
  apply rev_repeat.
Qed.

Lemma length_repeat_byte c n : String.length (repeat_byte c n) = n.
Proof. induction n as [|n IH]; [done |]. simpl. by rewrite IH. Qed.

(** A run that fails after writing [n] letters to stderr carries all [n]. *)
Lemma noisy_failure_diagnostic n :
  out_err (Run (noisy_failure n) NewDefaultFFmpeg fresh_command.1 [] fresh_command.2)
  = Some (Failed (Foreign "exit status 1" true) (repeat_byte "x" n)).
Proof.
  assert (Hl : launched (noisy_failure n) NewDefaultFFmpeg) by done.
  unfold Run.
  destruct (RunWithProgress_launched (noisy_failure n) NewDefaultFFmpeg fresh_command.1
              None tt [] fresh_command.2 Hl) as (_ & _ & ->).
  simpl. unfold trimSpace. by rewrite TrimSpace_repeat_x.
Qed.

(** C2, as the code has it: when the sink returns an error the run-scoped
    context is cancelled (it then reports [Canceled], or the cause that had
    ended it before), and the outcome is decided by the result of [Wait]
    alone.  Unless the deadline had expired before the abort, that is no
    timeout: nil if [Wait] returned nil, a failure if it returned an exit
    error, an execution error otherwise.  Whether the snapshot had reached
    [Done] plays no part. *)
Theorem sink_abort_cancels_and_reports_by_wait {S : Type} env t cmd
    (cb : sink S) st m a :
  launched env t -> sink_aborted env cb st m ->
  let r := RunWithProgress env t cmd (Some cb) st m a in
  out_ctx r = Some (default Canceled (env_ctx_early env))
  /\ out_err r = report (Timeout (out_tool r)) (out_ctx r) (env_wait env) (env_stderr env)
  /\ (env_ctx_early env <> Some DeadlineExceeded ->
      ~ reported_as_timeout r
      /\ out_err r
         = match env_wait env with
           | None => None
           | Some werr =>
               Some (if is_ExitError werr
                     then Failed werr (trimSpace (env_stderr env))
                     else ExecError werr (trimSpace (env_stderr env)))
           end).
Proof.
  intros Hl Hab r.
  destruct (RunWithProgress_launched env t cmd (Some cb) st m a Hl) as (_ & Hctx & Herr).
  fold r in Hctx, Herr. unfold sink_aborted in Hab. rewrite Hab in Hctx, Herr.
  assert (Hc : out_ctx r = Some (default Canceled (env_ctx_early env))).
  { rewrite Hctx. by destruct (env_ctx_early env). }
  split; [done |]. split; [by rewrite Hctx |].
  intros Hearly.
  assert (Hrep : out_err r
                 = match env_wait env with
                   | None => None
                   | Some werr =>
                       Some (if is_ExitError werr
                             then Failed werr (trimSpace (env_stderr env))
                             else ExecError werr (trimSpace (env_stderr env)))
                   end).
  { rewrite Herr, <- Hctx, Hc. unfold report.
    destruct (env_wait env) as [werr|]; [| done].
    destruct (env_ctx_early env) as [[|]|]; [done | |]; by destruct (is_ExitError werr). }
  split; [| done]. intros (e & He & Ht). rewrite Hrep in He.
  destruct (env_wait env) as [werr|]; [| done].
  destruct (is_ExitError werr); by simplify_eq.
Qed.

End RunFacts.

(** C1 as stated fails: no bound holds for the stderr text that a failed
    run carries; a subprocess that writes more carries more. *)
Lemma stderr_text_has_no_bound :
  ~ exists bound : nat, @Run.diagnostic_truncated_to demo_platform bound.
Proof.
  intros [bound Hb].
  destruct (Hb (Scenarios.noisy_failure (S bound)) Tool.NewDefaultFFmpeg
              Scenarios.fresh_command.1 [] Scenarios.fresh_command.2) as (e & He & Hlen).
  { split; [done | by eexists]. }
  rewrite (@noisy_failure_diagnostic demo_platform) in He. injection He as <-.
  simpl in Hlen. rewrite length_repeat_byte in Hlen. lia.
Qed.

Lemma run_failure_carries_trimmed_stderr_witness :
  @Run.run_failed demo_platform (Scenarios.noisy_failure 3) Tool.NewDefaultFFmpeg
  /\ exists e,
       Run.out_err (@Run.Run demo_platform (Scenarios.noisy_failure 3) Tool.NewDefaultFFmpeg
                      Scenarios.fresh_command.1 [] Scenarios.fresh_command.2) = Some e
       /\ GoErrors.diagnostic e = "xxx".
Proof.
  assert (Hf : @Run.run_failed demo_platform (Scenarios.noisy_failure 3) Tool.NewDefaultFFmpeg).
  { split; [done | by eexists]. }
  split; [exact Hf |].
  destruct (@run_failure_carries_trimmed_stderr demo_platform unit
              (Scenarios.noisy_failure 3) Tool.NewDefaultFFmpeg
              Scenarios.fresh_command.1 None tt [] Scenarios.fresh_command.2 Hf)
    as (e & He & Hd & _).
  exists e. split; [exact He | exact Hd].
Defined.

(** C2 as stated fails: the sink stops the run at the first snapshot, which
    is not [Done]; the context is cancelled, and the killed subprocess is
    reported as a failed process, not as a timeout. *)
Lemma sink_abort_is_not_a_timeout :
  let r := @Run.RunWithProgress demo_platform nat Scenarios.aborted_run
             Tool.NewDefaultFFmpeg Scenarios.fresh_command.1
             (Some (@Scenarios.stop_at_once demo_platform)) 0%nat []
             Scenarios.fresh_command.2 in
  @Run.sink_aborted demo_platform nat Scenarios.aborted_run
    (@Scenarios.stop_at_once demo_platform) 0%nat []
  /\ Run.out_ctx r = Some Run.Canceled
  /\ Progress.Done (Run.out_last r) = false
  /\ Run.out_err r = Some (GoErrors.Failed (GoErrors.Foreign "signal: killed" true) "")
  /\ ~ Run.reported_as_timeout r.
Proof.
  intros r. split; [reflexivity |]. split; [reflexivity |]. split; [reflexivity |].
  split; [reflexivity |]. intros (e & He & Ht).
  assert (Hr : Run.out_err r
               = Some (GoErrors.Failed (GoErrors.Foreign "signal: killed" true) ""))
    by reflexivity.
  rewrite Hr in He. injection He as <-. discriminate Ht.
Qed.

Lemma sink_abort_cancels_and_reports_by_wait_witness :
  let r := @Run.RunWithProgress demo_platform nat Scenarios.aborted_run
             Tool.NewDefaultFFmpeg Scenarios.fresh_command.1
             (Some (@Scenarios.stop_at_once demo_platform)) 0%nat []
             Scenarios.fresh_command.2 in
  @Run.launched demo_platform Scenarios.aborted_run Tool.NewDefaultFFmpeg
  /\ @Run.sink_aborted demo_platform nat Scenarios.aborted_run
       (@Scenarios.stop_at_once demo_platform) 0%nat []
  /\ Run.out_ctx r = Some Run.Canceled.
Proof.
  intros r.
  assert (Hl : @Run.launched demo_platform Scenarios.aborted_run Tool.NewDefaultFFmpeg)
    by done.
  assert (Ha : @Run.sink_aborted demo_platform nat Scenarios.aborted_run
                 (@Scenarios.stop_at_once demo_platform) 0%nat []) by reflexivity.
  split; [exact Hl |]. split; [exact Ha |].
  exact (proj1 (@sink_abort_cancels_and_reports_by_wait demo_platform nat
                  Scenarios.aborted_run Tool.NewDefaultFFmpeg Scenarios.fresh_command.1
                  (@Scenarios.stop_at_once demo_platform) 0%nat []
                  Scenarios.fresh_command.2 Hl Ha)).
Defined.

(** ** More on the progress decoder *)

Section ProgressTraceFacts.
Import GoStrings GoStrconv GoErrors Progress ProgressTrace.
Context `{GoPlatform}.
Local Open Scope list_scope.

(** X1: a line that is blank after trimming, has no separator, or begins
    with the separator is skipped: the decoder and the store stay as they
    are, and no error arises. *)
Theorem ignored_lines_change_nothing line p h :
  ignored_line line -> parseProgressLine line p h = (p, h).
Proof.
  unfold ignored_line, parseProgressLine.
  intros [-> | [Hnone | [rest ->]]]; [done | |].
  - rewrite Hnone. by destruct (String.eqb _ _).
  - simpl. done.
Qed.




(** *** What the decoder writes *)

Lemma applyKV_writes_own_cell k v p h :
  wf_progress h p ->
  let '(p1, h1) := applyKV k v p h in
  wf_progress h1 p1
  /\ (length h <= length h1)%nat
  /\ (forall m, Extra p = Some m -> Extra p1 = Some m)
  /\ (forall m, Extra p1 = Some m -> Extra p = Some m \/ (length h <= m)%nat)
  /\ (forall j, (j < length h)%nat -> Extra p <> Some j -> h1 !! j = h !! j).
Proof.
  intros Hwf. unfold applyKV.
  repeat (match goal with |- context [if ?b then _ else _] => destruct b end;
          [repeat case_match; simplify_eq; repeat split; (done || lia || by left) |]).
  unfold wf_progress in *. destruct (Extra p) as [m|] eqn:Hm; simpl.
  - rewrite length_alter. repeat split; try done.
    + intros m' [= <-]. by left.
    + intros j Hj Hne. apply list_lookup_alter_ne. congruence.
  - rewrite length_alter, length_app. simpl. repeat split; try lia; try done.
    + intros m' [= <-]. by right.
    + intros j Hj _. rewrite list_lookup_alter_ne by lia. by apply lookup_app_l.
Qed.

Lemma parseProgressLine_writes_own_cell line p h :
  wf_progress h p ->
  let '(p1, h1) := parseProgressLine line p h in
  wf_progress h1 p1
  /\ (length h <= length h1)%nat
  /\ (forall m, Extra p = Some m -> Extra p1 = Some m)
  /\ (forall m, Extra p1 = Some m -> Extra p = Some m \/ (length h <= m)%nat)
  /\ (forall j, (j < length h)%nat -> Extra p <> Some j -> h1 !! j = h !! j).
Proof.
  intros Hwf. unfold parseProgressLine.
  destruct (String.eqb _ _); [repeat split; (done || by left) |].
  destruct (_ <=? _)%Z; [repeat split; (done || by left) |].
  by apply applyKV_writes_own_cell.
Qed.

Lemma decodeLines_writes_own_cell lines p h :
  wf_progress h p ->
  let '(p1, h1) := decodeLines lines p h in
  wf_progress h1 p1
  /\ (length h <= length h1)%nat
  /\ (forall m, Extra p = Some m -> Extra p1 = Some m)
  /\ (forall m, Extra p1 = Some m -> Extra p = Some m \/ (length h <= m)%nat)
  /\ (forall j, (j < length h)%nat -> Extra p <> Some j -> h1 !! j = h !! j).
Proof.
  revert p h. induction lines as [|l lines IH]; intros p h Hwf;
    [repeat split; (done || by left) |].
  simpl. pose proof (parseProgressLine_writes_own_cell l p h Hwf) as Hl.
  destruct (parseProgressLine l p h) as [p1 h1].
  destruct Hl as (Hwf1 & Hlen1 & Hsame1 & Hnew1 & Hfr1).
  specialize (IH p1 h1 Hwf1). destruct (decodeLines lines p1 h1) as [p2 h2].
  destruct IH as (Hwf2 & Hlen2 & Hsame2 & Hnew2 & Hfr2).
  split; [done |]. split; [lia |]. split; [by intros m Hm; apply Hsame2, Hsame1 |].
  split.
  - intros m Hm. destruct (Hnew2 m Hm) as [Hm1 | Hge]; [| right; lia].
    destruct (Hnew1 m Hm1) as [Hm0 | Hge]; [by left | by right].
  - intros j Hj Hne. rewrite Hfr2; [by apply Hfr1 | lia |].
    intros Hp1. destruct (Hnew1 j Hp1) as [Hp | Hge]; [done | lia].
Qed.

(** X3: decoders do not interfere.  Folding lines into one decoder leaves
    every other decoder of the same store as it was, fields and [Extra]
    contents alike, and never removes a map from the store. *)
Theorem decoders_do_not_interfere lines p q h :
  wf_progress h p -> wf_progress h q ->
  Extra q = None \/ Extra q <> Extra p ->
  let '(p1, h1) := decodeLines lines p h in
  observe h1 q = observe h q /\ (length h <= length h1)%nat.
Proof.
  intros Hp Hq Hpq. pose proof (decodeLines_writes_own_cell lines p h Hp) as Hd.
  destruct (decodeLines lines p h) as [p1 h1]. destruct Hd as (_ & Hlen & _ & _ & Hfr).
  split; [| done]. unfold observe. f_equal.
  unfold wf_progress in Hq. destruct (Extra q) as [j|] eqn:Hj; [| done].
  apply Hfr; [done |]. destruct Hpq as [Hnone | Hne]; [done | congruence].
Qed.

(** X4: a snapshot is not a deep copy.  Once a decoder has its [Extra] map,
    later lines write into that same map: a copy of the decoder taken
    before (the caller's [last], or a snapshot a sink has kept) shows every
    key that was added after it was taken. *)
Theorem snapshots_share_the_extra_map lines p h m :
  wf_progress h p -> Extra p = Some m ->
  let '(p2, h2) := decodeLines lines p h in
  Extra p2 = Some m
  /\ s_extra (observe h2 p) = s_extra (observe h2 p2)
  /\ s_extra (observe h2 p) = s_extra (fold_lines lines (observe h p)).
Proof.
  intros Hwf Hm. pose proof (decodeLines_writes_own_cell lines p h Hwf) as Hd.
  pose proof (observe_decodeLines lines p h Hwf) as Ho.
  destruct (decodeLines lines p h) as [p2 h2].
  destruct Hd as (_ & _ & Hsame & _). destruct Ho as [_ Ho].
  specialize (Hsame m Hm). split; [done |].
  assert (Heq : s_extra (observe h2 p) = s_extra (observe h2 p2))
    by (unfold observe; simpl; by rewrite Hm, Hsame).
  split; [done |]. by rewrite Heq, Ho.
Qed.

(** *** Scans whose sink never asks to stop *)

Lemma linesRead_spec {S : Type} lines last p (f : option (sink S)) st h :
  (forall g s q hq, f = Some g -> (g s q hq).2 = None) ->
  let r := scanLoop lines last p f st h in
  lines = linesRead lines p h ++ sc_unread r
  /\ sc_cancelled r = false
  /\ (linesRead lines p h <> [] ->
      (sc_last r, sc_store r) = decodeLines (linesRead lines p h) p h).
Proof.
  intros Hf. revert last p st h.
  induction lines as [|l lines IH]; intros last p st h; [done |].
  cbv zeta. rewrite scanLoop_cons. simpl linesRead.
  destruct (parseProgressLine l p h) as [p1 h1] eqn:Hp.
  assert (Hone : decodeLines [l] p h = (p1, h1)) by (simpl; by rewrite Hp).
  destruct f as [g|].
  - pose proof (Hf g st p1 h1 eq_refl) as Hg.
    destruct (g st p1 h1) as [st1 [e|]]; [done |].
    destruct (Done p1) eqn:Hd; [by rewrite Hone |].
    destruct (IH p1 p1 st1 h1) as (Hl & Hc & Hfold).
    split; [simpl; by rewrite <- Hl |]. split; [done |]. intros _.
    simpl. rewrite Hp. destruct (linesRead lines p1 h1) as [|x xs] eqn:Hr.
    + destruct lines as [|y ys]; [done |]. simpl in Hr.
      destruct (parseProgressLine y p1 h1) as [p2 h2]. by destruct (Done p2).
    + by apply Hfold.
  - destruct (Done p1) eqn:Hd; [by rewrite Hone |].
    destruct (IH p1 p1 st h1) as (Hl & Hc & Hfold).
    split; [simpl; by rewrite <- Hl |]. split; [done |]. intros _.
    simpl. rewrite Hp. destruct (linesRead lines p1 h1) as [|x xs] eqn:Hr.
    + destruct lines as [|y ys]; [done |]. simpl in Hr.
      destruct (parseProgressLine y p1 h1) as [p2 h2]. by destruct (Done p2).
    + by apply Hfold.
Qed.

Lemma recorder_trace lines last p seen h :
  sc_sink (scanLoop lines last p (Some recorder) seen h)
  = seen ++ decodeStates (linesRead lines p h) p h.
Proof.
  revert last p seen h. induction lines as [|l lines IH]; intros last p seen h.
  - simpl. by rewrite app_nil_r.
  - rewrite scanLoop_cons. simpl linesRead.
    destruct (parseProgressLine l p h) as [p1 h1] eqn:Hp. unfold recorder at 1.
    destruct (Done p1) eqn:Hd.
    + simpl. by rewrite Hp.
    + rewrite IH. simpl. rewrite Hp. by rewrite <- app_assoc.
Qed.

(** X5: with no sink, or a sink that never returns an error, [scanProgress]
    reads the lines up to and with the first one that leaves the decoder
    [Done] (all of them if there is none), returns their fold and is not
    cancelled.  The sink is handed one snapshot for every line read, blank
    and malformed lines included, in the order of the lines. *)
Theorem scan_reads_up_to_the_first_done {S : Type} lines last (f : option (sink S))
    st seen h :
  (forall g s q hq, f = Some g -> (g s q hq).2 = None) ->
  let r := scanProgress lines last f st h in
  let read := linesRead lines zero h in
  lines = read ++ sc_unread r
  /\ sc_cancelled r = false
  /\ (read <> [] -> (sc_last r, sc_store r) = decodeLines read zero h)
  /\ (read = [] -> sc_last r = last)
  /\ sc_sink (scanProgress lines last (Some recorder) seen h)
     = seen ++ decodeStates read zero h
  /\ length (decodeStates read zero h) = length read.
Proof.
  intros Hf r read.
  destruct (linesRead_spec lines last zero f st h Hf) as (Hl & Hc & Hfold).
  split; [done |]. split; [done |]. split; [done |]. split; [| split].
  - subst read r. intros Hread. unfold scanProgress.
    destruct lines as [|l lines]; [done |]. simpl in Hread.
    destruct (parseProgressLine l zero h) as [p1 h1]. by destruct (Done p1).
  - apply recorder_trace.
  - subst read. generalize (linesRead lines zero h). generalize zero. generalize h.
    intros h0 p0 ls. revert h0 p0. induction ls as [|x xs IH]; intros h0 p0; [done |].
    simpl. destruct (parseProgressLine x p0 h0) as [p1 h1]. simpl. by rewrite IH.
Qed.

End ProgressTraceFacts.


Lemma ignored_lines_change_nothing_witness :
  ProgressTrace.ignored_line "   "
  /\ ProgressTrace.ignored_line "no separator here"
  /\ ProgressTrace.ignored_line " =value"
  /\ @Progress.parseProgressLine demo_platform " =value" Progress.zero []
     = (Progress.zero, []).
Proof.
  assert (H3 : ProgressTrace.ignored_line " =value").
  { right. right. exists "value". reflexivity. }
  split; [left; reflexivity |]. split; [right; left; reflexivity |].
  split; [exact H3 |].
  exact (@ignored_lines_change_nothing demo_platform " =value" Progress.zero [] H3).
Defined.

Lemma decoders_do_not_interfere_witness :
  let p := (@Progress.decodeLines demo_platform ["a=1"] Progress.zero []).1 in
  let h := (@Progress.decodeLines demo_platform ["a=1"] Progress.zero []).2 in
  let q := (@Progress.decodeLines demo_platform ["b=2"] Progress.zero h).1 in
  let h' := (@Progress.decodeLines demo_platform ["b=2"] Progress.zero h).2 in
  Progress.wf_progress h' p /\ Progress.wf_progress h' q
  /\ (Progress.Extra q = None \/ Progress.Extra q <> Progress.Extra p)
  /\ (let '(p1, h1) := Progress.decodeLines ["c=3"] p h' in
      Progress.observe h1 q = Progress.observe h' q).
Proof.
  intros p h q h'.
  assert (Hp : Progress.wf_progress h' p) by (cbv; lia).
  assert (Hq : Progress.wf_progress h' q) by (cbv; lia).
  assert (Hpq : Progress.Extra q = None \/ Progress.Extra q <> Progress.Extra p)
    by (right; discriminate).
  split; [exact Hp |]. split; [exact Hq |]. split; [exact Hpq |].
  pose proof (@decoders_do_not_interfere demo_platform ["c=3"] p q h' Hp Hq Hpq) as Hd.
  destruct (Progress.decodeLines ["c=3"] p h') as [p1 h1]. exact (proj1 Hd).
Defined.

Lemma snapshots_share_the_extra_map_witness :
  let p := (@Progress.decodeLines demo_platform ["a=1"] Progress.zero []).1 in
  let h := (@Progress.decodeLines demo_platform ["a=1"] Progress.zero []).2 in
  Progress.wf_progress h p /\ Progress.Extra p = Some 0%nat
  /\ (let '(p2, h2) := Progress.decodeLines ["b=2"] p h in
      Progress.s_extra (Progress.observe h2 p)
      = Progress.s_extra (Progress.observe h2 p2)).
Proof.
  intros p h.
  assert (Hwf : Progress.wf_progress h p) by (cbv; lia).
  assert (Hm : Progress.Extra p = Some 0%nat) by reflexivity.
  split; [exact Hwf |]. split; [exact Hm |].
  pose proof (@snapshots_share_the_extra_map demo_platform ["b=2"] p h 0%nat Hwf Hm) as Hs.
  destruct (Progress.decodeLines ["b=2"] p h) as [p2 h2]. exact (proj1 (proj2 Hs)).
Defined.

Lemma scan_reads_up_to_the_first_done_witness :
  (forall g s q hq, Some (@ProgressTrace.recorder demo_platform) = Some g -> (g s q hq).2 = None)
  /\ @Progress.sc_unread demo_platform _
       (@Progress.scanProgress demo_platform _ ["frame=1"; ""; "progress=end"; "frame=9"]
          Progress.zero (Some (@ProgressTrace.recorder demo_platform)) [] [])
     = ["frame=9"].
Proof.
  assert (Hf : forall g s q hq,
             Some (@ProgressTrace.recorder demo_platform) = Some g -> (g s q hq).2 = None).
  { intros g s q hq Hg. injection Hg as <-. reflexivity. }
  split; [exact Hf |].
  pose proof (@scan_reads_up_to_the_first_done demo_platform _
                ["frame=1"; ""; "progress=end"; "frame=9"] Progress.zero
                (Some (@ProgressTrace.recorder demo_platform)) [] [] [] Hf) as [Hl _].
  apply (app_inv_head (@ProgressTrace.linesRead demo_platform
                         ["frame=1"; ""; "progress=end"; "frame=9"] Progress.zero [])).
  rewrite <- Hl. reflexivity.
Defined.

(** ** More on the argument builder *)

Section BuilderFacts.
Import GoStrings GoStrconv Command Presets.
Context `{GoPlatform}.
Local Open Scope list_scope.

(** X6: the builder denotes a list.  From a new command, or from any well
    formed one, a chain of calls leaves a well formed slice whose elements
    are what the same calls give on plain lists: every call but
    [Overwrite(false)] adds its tokens at the end, in the order of the
    calls. *)
Theorem builder_denotes_a_list ms c h h0 :
  wf_slice h (args c) ->
  (let '(c1, h1) := calls ms c h in
   wf_slice h1 (args c1) /\ elems h1 (args c1) = list_calls ms (elems h (args c)))
  /\ (let '(c0, h1) := NewFFmpegCommand h0 in
      let '(c1, h2) := calls ms c0 h1 in
      wf_slice h2 (args c1) /\ elems h2 (args c1) = list_calls ms ["-y"]).
Proof.
  intros Hwf. split; [by apply calls_spec |].
  pose proof (NewFFmpegCommand_spec h0) as Hn.
  destruct (NewFFmpegCommand h0) as [c0 h1]. destruct Hn as [Hwf0 He0].
  pose proof (calls_spec ms c0 h1 Hwf0) as Hs.
  destruct (calls ms c0 h1) as [c1 h2]. by rewrite <- He0.
Qed.

Lemma without_y_idempotent l : without_y (without_y l) = without_y l.
Proof.
  unfold without_y. induction l as [|a l IH]; [done |].
  rewrite filter_cons. case_decide; [| done].
  rewrite filter_cons. rewrite decide_True by done. by rewrite IH.
Qed.

Lemma without_y_app l k : without_y (l ++ k) = without_y l ++ without_y k.
Proof. unfold without_y. apply filter_app. Qed.

(** X7: [Overwrite(true)] does not undo [Overwrite(false)]: it adds no
    ["-y"] back and leaves the ["-n"] in place.  A second
    [Overwrite(false)] adds a second ["-n"]. *)
Theorem Overwrite_true_does_not_restore c h :
  wf_slice h (args c) ->
  (let '(c1, h1) := calls [CallOverwrite false; CallOverwrite true] c h in
   elems h1 (args c1) = without_y (elems h (args c)) ++ ["-n"])
  /\ (let '(c1, h1) := calls [CallOverwrite false; CallOverwrite false] c h in
      elems h1 (args c1) = without_y (elems h (args c)) ++ ["-n"; "-n"]).
Proof.
  intros Hwf. split.
  - pose proof (calls_spec [CallOverwrite false; CallOverwrite true] c h Hwf) as Hs.
    destruct (calls _ c h) as [c1 h1]. destruct Hs as [_ ->].
    unfold list_calls. simpl. by rewrite app_nil_r.
  - pose proof (calls_spec [CallOverwrite false; CallOverwrite false] c h Hwf) as Hs.
    destruct (calls _ c h) as [c1 h1]. destruct Hs as [_ ->].
    unfold list_calls. simpl. rewrite without_y_app, without_y_idempotent.
    by rewrite <- app_assoc.
Qed.

(** X8: the four presets build these argument vectors: overwrite first, the
    banner hidden and the log level at [error], the output path last; a
    [crf] that is not positive becomes 23, an empty preset [medium], an
    empty bitrate [128k]. *)
Theorem presets_build_these_vectors input output crf preset bitrate atSeconds h :
  (let '(c, h1) := PresetTranscodeMP4H264AAC input output crf preset h in
   elems h1 (args c)
   = ["-y"; "-hide_banner"; "-v"; "error"; "-i"; input; "-c:v"; "libx264";
      "-c:a"; "aac"; "-crf"; itoa (if crf <=? 0 then 23 else crf);
      "-preset"; (if String.eqb preset "" then "medium" else preset);
      "-movflags"; "+faststart"; output])
  /\ (let '(c, h1) := PresetRemux input output h in
      elems h1 (args c)
      = ["-y"; "-hide_banner"; "-v"; "error"; "-i"; input; "-c:v"; "copy";
         "-c:a"; "copy"; output])
  /\ (let '(c, h1) := PresetExtractAAC input output bitrate h in
      elems h1 (args c)
      = ["-y"; "-hide_banner"; "-v"; "error"; "-i"; input; "-vn"; "-c:a"; "aac";
         "-b:a"; (if String.eqb bitrate "" then "128k" else bitrate); output])
  /\ (let '(c, h1) := PresetSnapshot input output atSeconds h in
      elems h1 (args c)
      = ["-y"; "-hide_banner"; "-v"; "error"; "-ss"; FormatFloat3 atSeconds;
         "-i"; input; "-frames:v"; "1"; output]).
Proof.
  unfold PresetTranscodeMP4H264AAC, PresetRemux, PresetExtractAAC, PresetSnapshot.
  pose proof (NewFFmpegCommand_spec h) as Hn.
  destruct (NewFFmpegCommand h) as [c0 h1]. destruct Hn as [Hwf0 He0].
  repeat split;
    match goal with
    | |- context [calls ?ms c0 h1] =>
        let Hs := fresh "Hs" in
        pose proof (calls_spec ms c0 h1 Hwf0) as Hs;
        destruct (calls ms c0 h1) as [c1 h2]; destruct Hs as [_ ->]; by rewrite He0
    end.
Qed.

(** *** [trimFloat] *)

Lemma rev_onto_append s acc : rev_onto s acc = rev s +:+ acc.
Proof.
  unfold rev. revert acc. induction s as [|a s IH]; intros acc; [done |].
  simpl. rewrite (IH (String a acc)), (IH (String a "")).
  by rewrite append_assoc.
Qed.

Lemma rev_cons a s : rev (String a s) = rev s +:+ String a "".
Proof. unfold rev at 1. simpl. apply rev_onto_append. Qed.

Lemma rev_append s t : rev (s +:+ t) = rev t +:+ rev s.
Proof.
  induction s as [|a s IH]; [by rewrite append_nil, append_empty |].
  by rewrite append_cons, !rev_cons, IH, append_assoc.
Qed.

Lemma rev_involutive s : rev (rev s) = s.
Proof.
  induction s as [|a s IH]; [done |]. by rewrite rev_cons, rev_append, IH.
Qed.

Lemma last_byte_snoc s a : last_byte (s +:+ String a "") = Some a.
Proof.
  induction s as [|b s IH]; [done |]. rewrite append_cons. simpl. rewrite IH.
  by destruct (s +:+ String a "") eqn:Hs; [destruct s |].
Qed.

(** A string is empty or has a last byte. *)
Lemma snoc_or_empty s : s = "" \/ exists t a, s = t +:+ String a "".
Proof.
  induction s as [|b s IH]; [by left |]. right.
  destruct IH as [-> | (t & a & ->)]; [by exists "", b |].
  by exists (String b t), a.
Qed.

Lemma TrimRightByte_snoc_same s c :
  TrimRightByte (s +:+ String c "") c = TrimRightByte s c.
Proof.
  unfold TrimRightByte. rewrite rev_append. change (rev (String c "")) with (String c "").
  rewrite append_cons, append_nil. simpl. by rewrite Ascii.eqb_refl.
Qed.

Lemma TrimRightByte_keep s c :
  last_byte s <> Some c -> TrimRightByte s c = s.
Proof.
  intros Hl. unfold TrimRightByte.
  destruct (snoc_or_empty s) as [-> | (t & a & ->)]; [done |].
  rewrite last_byte_snoc in Hl. rewrite rev_append.
  change (rev (String a "")) with (String a ""). rewrite append_cons, append_nil. simpl.
  destruct (Ascii.eqb_spec a c) as [-> | _]; [done |].
  change (String a (rev t)) with (String a "" +:+ rev t).
  by rewrite rev_append, rev_involutive.
Qed.

Lemma length_append s t :
  String.length (s +:+ t) = (String.length s + String.length t)%nat.
Proof. induction s as [|a s IH]; [done |]. rewrite append_cons. simpl. by rewrite IH. Qed.

(** What is left has no [c] at its end, and is the start of the string. *)
Lemma TrimRightByte_spec s c :
  last_byte (TrimRightByte s c) <> Some c
  /\ exists n, s = TrimRightByte s c +:+ repeat_byte c n.
Proof.
  revert s. assert (Hind : forall n s, String.length s = n ->
    last_byte (TrimRightByte s c) <> Some c
    /\ exists k, s = TrimRightByte s c +:+ repeat_byte c k).
  { induction n as [|n IH]; intros s Hn.
    - destruct s; [| done]. split; [done | by exists 0%nat].
    - destruct (snoc_or_empty s) as [-> | (t & a & ->)]; [done |].
      destruct (Ascii.eqb_spec a c) as [-> | Hne].
      + rewrite TrimRightByte_snoc_same.
        assert (Ht : String.length t = n).
        { rewrite length_append in Hn. simpl in Hn. lia. }
        destruct (IH t Ht) as [Hl (k & Hk)]. split; [done |].
        exists (S k). rewrite Hk at 1. rewrite append_assoc. f_equal.
        clear. induction k as [|k IHk]; [done |]. simpl. rewrite append_cons. by f_equal.
      + rewrite TrimRightByte_keep by (rewrite last_byte_snoc; congruence).
        split; [rewrite last_byte_snoc; congruence |]. exists 0%nat. by rewrite append_empty. }
  intros s. by apply (Hind (String.length s)).
Qed.

Lemma prefix_append s t : String.prefix s (s +:+ t) = true.
Proof.
  induction s as [|a s IH]; [by destruct t |].
  rewrite append_cons. simpl. by destruct (ascii_dec a a).
Qed.

(** X9: [trimFloat] never returns the empty string and never a string that
    ends with the decimal point; what it returns is ["0"] or the start of
    the number as [%.3f] prints it.  A number printed with three zero
    decimals comes out as its integer part, trailing zeros of that part
    kept. *)
Theorem trimFloat_shape (f : float64) :
  trimFloat f <> ""
  /\ last_byte (trimFloat f) <> Some "."%char
  /\ (trimFloat f = "0" \/ String.prefix (trimFloat f) (FormatFloat3 f) = true)
  /\ (forall w, FormatFloat3 f = w +:+ ".000" -> w <> "" ->
        last_byte w <> Some "."%char -> trimFloat f = w).
Proof.
  unfold trimFloat.
  destruct (TrimRightByte_spec (FormatFloat3 f) "0") as [_ (n0 & Hn0)].
  destruct (TrimRightByte_spec (TrimRightByte (FormatFloat3 f) "0") ".") as [Hdot (n1 & Hn1)].
  set (s2 := TrimRightByte (TrimRightByte (FormatFloat3 f) "0") ".") in *.
  split; [| split; [| split]].
  - destruct (String.eqb_spec s2 ""); done.
  - destruct (String.eqb_spec s2 ""); done.
  - destruct (String.eqb_spec s2 ""); [by left | right].
    rewrite Hn0, Hn1, append_assoc. apply prefix_append.
  - intros w Hw Hne Hl. subst s2. rewrite Hw.
    change (w +:+ ".000") with (w +:+ String "." (String "0" (String "0" (String "0" "")))).
    assert (Hz : w +:+ String "." (String "0" (String "0" (String "0" "")))
                 = (((w +:+ String "." "") +:+ String "0" "") +:+ String "0" "") +:+ String "0" "")
      by (by rewrite !append_assoc).
    rewrite Hz, !TrimRightByte_snoc_same.
    rewrite (TrimRightByte_keep (w +:+ String "." "") "0")
      by (rewrite last_byte_snoc; discriminate).
    rewrite TrimRightByte_snoc_same, (TrimRightByte_keep w ".") by done.
    by destruct (String.eqb_spec w "").
Qed.

End BuilderFacts.

Lemma builder_denotes_a_list_witness :
  let c := Command.mkCommand (Command.mkSlice (Some 0%nat) 1 1) in
  let h := [["-y"]] in
  Command.wf_slice h (Command.args c)
  /\ (let '(c1, h1) := @Command.calls demo_platform
                         [Command.CallInput "a.mkv"; Command.CallCRF 18;
                          Command.CallOutput "b.mp4"] c h in
      Command.elems h1 (Command.args c1) = ["-y"; "-i"; "a.mkv"; "-crf"; "18"; "b.mp4"]).
Proof.
  intros c h.
  assert (Hwf : Command.wf_slice h (Command.args c)) by (cbv; lia).
  split; [exact Hwf |].
  pose proof (@builder_denotes_a_list demo_platform
                [Command.CallInput "a.mkv"; Command.CallCRF 18; Command.CallOutput "b.mp4"]
                c h [] Hwf) as [Hs _].
  destruct (Command.calls _ c h) as [c1 h1]. destruct Hs as [_ Hs]. exact Hs.
Defined.

Lemma Overwrite_true_does_not_restore_witness :
  let c := Command.mkCommand (Command.mkSlice (Some 0%nat) 2 2) in
  let h := [["-y"; "out.mp4"]] in
  Command.wf_slice h (Command.args c)
  /\ (let '(c1, h1) := @Command.calls demo_platform
                         [Command.CallOverwrite false; Command.CallOverwrite true] c h in
      Command.elems h1 (Command.args c1) = ["out.mp4"; "-n"]).
Proof.
  intros c h.
  assert (Hwf : Command.wf_slice h (Command.args c)) by (cbv; lia).
  split; [exact Hwf |].
  pose proof (@Overwrite_true_does_not_restore demo_platform c h Hwf) as [Hs _].
  destruct (Command.calls _ c h) as [c1 h1]. exact Hs.
Defined.

Lemma trimFloat_shape_witness :
  @FormatFloat3 demo_platform 100 = "100" +:+ ".000"
  /\ @Command.trimFloat demo_platform 100 = "100".
Proof.
  assert (Hw : @FormatFloat3 demo_platform 100 = "100" +:+ ".000") by reflexivity.
  split; [exact Hw |].
  destruct (@trimFloat_shape demo_platform 100) as (_ & _ & _ & Hint).
  exact (Hint "100" Hw ltac:(discriminate) ltac:(discriminate)).
Defined.

(** ** More on the readiness check *)

Section ToolMoreFacts.
Import GoStrings GoErrors Tool ToolBounds.
Context `{GoPlatform}.
Local Open Scope list_scope.

Lemma version_or_unknown_nonempty k stdout : version_or_unknown k stdout <> "".
Proof.
  unfold version_or_unknown. by destruct (String.eqb_spec (parseVersion k stdout) "").
Qed.

Lemma fresh_check_version_nonempty k w t :
  checked t = false -> (ensureReady k w t).1.1 = None ->
  version (ensureReady k w t).1.2 <> "".
Proof.
  intros Hc. unfold ensureReady, lookup_path. rewrite Hc.
  destruct (LookPath w _) as [resolved | err]; simpl; [| done].
  destruct (run_err (RunVersion w resolved (probe_deadline k t))); simpl; [done |].
  intros _. apply version_or_unknown_nonempty.
Qed.

(** X10: the first check of a tool.  The configured path and timeout are
    never written; the path looked up is the configured one, or the tool's
    name if that is empty.  If the look-up fails the binary is not run and
    no resolved path is stored.  Otherwise the binary that is run is the
    resolved one, which is stored whether the run succeeds or not; after a
    successful run the cached version is never empty ([unknown] at least). *)
Theorem first_check_outcome k w t :
  checked t = false ->
  let '(r, t1, log) := ensureReady k w t in
  ToolPath t1 = ToolPath t /\ Timeout t1 = Timeout t
  /\ checked t1 = true /\ checkErr t1 = r
  /\ match LookPath w (if String.eqb (ToolPath t) "" then tool_name k else ToolPath t) with
     | Missing err =>
         (exists path, r = Some (NotFound k path err) /\ log = [SysLookPath path])
         /\ resolvedPath t1 = resolvedPath t /\ version t1 = version t
     | Found resolved =>
         resolvedPath t1 = resolved
         /\ (exists path d, log = [SysLookPath path; SysRun resolved d])
         /\ (r = None -> version t1 <> "")
         /\ (forall e, r = Some e -> version t1 = version t /\ is_timeout e = false)
     end.
Proof.
  intros Hc. unfold ensureReady, lookup_path. rewrite Hc.
  destruct (LookPath w _) as [resolved | err]; simpl.
  - destruct (run_err (RunVersion w resolved (probe_deadline k t))) as [runErr|]; simpl.
    + split_and!; try done; [by eexists _, _ |].
      intros e0 [= <-]. unfold probe_error. by destruct (run_deadline _).
    + split_and!; try done; [by eexists _, _ |].
      intros _. apply version_or_unknown_nonempty.
  - split_and!; try done. by eexists.
Qed.

(** X11: one caller at a time.  Over any number of calls on one tool, each
    meeting its own system, the path is resolved at most once and the
    binary run at most once, both by the first call, and every call returns
    what the first returned. *)
Theorem one_caller_at_a_time_checks_once k w ws t :
  let '(rs, t1, log) := ensureReady_each k (w :: ws) t in
  log = (ensureReady k w t).2
  /\ (length (filter (fun s => is_run s = true) log) <= 1)%nat
  /\ (length (filter (fun s => is_run s = false) log) <= 1)%nat
  /\ length rs = S (length ws)
  /\ Forall (fun r => r = (ensureReady k w t).1.1) rs.
Proof.
  pose proof (sequential_calls_check_once k w ws t) as Hs.
  assert (Hlen : length (ensureReady_each k (w :: ws) t).1.1 = S (length ws)).
  { clear. revert w t. induction ws as [|w' ws IH]; intros w t.
    - simpl. by destruct (ensureReady k w t) as [[r t1] log].
    - specialize (IH w'). simpl in *. destruct (ensureReady k w t) as [[r t1] log].
      specialize (IH t1). destruct (ensureReady k w' t1) as [[r' t2] log'].
      destruct (ensureReady_each k ws t2) as [[rs t3] logs]. simpl in *. lia. }
  destruct (ensureReady_each k (w :: ws) t) as [[rs t1] log]. simpl in Hlen. tauto.
Qed.

(** X12: [Version] replays what the first call found.  Its result on the
    tool it leaves is the same in every later system, without any call to
    the system; the version comes with a nil error and the empty string with
    an error, and on a tool that was not checked before a nil error comes
    with a version that is not empty. *)
Theorem Version_replays_the_cache k w w' t :
  let '((v, e), t1, log) := Version k w t in
  Version k w' t1 = ((v, e), t1, [])
  /\ (e <> None -> v = "")
  /\ (checked t = false -> e = None -> v <> "").
Proof.
  unfold Version. pose proof (ensureReady_checks k w t) as Hc.
  assert (Hres : (ensureReady k w t).1.1 = checkErr (ensureReady k w t).1.2).
  { unfold ensureReady. destruct (checked t); [done |].
    destruct (LookPath w _); [| done]. by destruct (run_err _). }
  pose proof (fresh_check_version_nonempty k w t) as Hfirst.
  destruct (ensureReady k w t) as [[r t1] log]. simpl in Hc, Hres, Hfirst.
  destruct r as [err|].
  - rewrite (ensureReady_checked k w' t1 Hc), <- Hres. done.
  - rewrite (ensureReady_checked k w' t1 Hc), <- Hres. split; [done |]. split; [done |].
    intros Hfresh _. by apply Hfirst.
Qed.


(** *** Goroutines: how often the system is asked at most *)

Lemma weight_sum_insert weight ps i p q :
  ps !! i = Some p ->
  (weight_sum weight (<[i := q]> ps) + weight p = weight_sum weight ps + weight q)%nat.
Proof.
  unfold weight_sum. revert i. induction ps as [|x ps IH]; intros i Hi; [done |].
  destruct i as [|i].
  - injection Hi as ->. change (<[0%nat := q]> (p :: ps)) with (q :: ps).
    rewrite !fmap_cons. simpl sum_list. lia.
  - specialize (IH i Hi). change (<[S i := q]> (x :: ps)) with (x :: <[i := q]> ps).
    rewrite !fmap_cons. simpl sum_list. lia.
Qed.

Lemma weight_sum_le weight ps :
  (forall p, (weight p <= 1)%nat) -> (weight_sum weight ps <= length ps)%nat.
Proof.
  intros Hw. unfold weight_sum. induction ps as [|x ps IH]; [done |].
  rewrite fmap_cons. simpl sum_list. simpl length. specialize (Hw x). lia.
Qed.

Lemma step_accounted k i w c c1 :
  accounted c -> step k i w c = Some c1 ->
  accounted c1 /\ length (threads c1) = length (threads c).
Proof.
  intros (Hl & Hr & Hs) Hstep. unfold step in Hstep.
  destruct (threads c !! i) as [p|] eqn:Hi; [| done].
  pose proof (weight_sum_insert past_lookup (threads c) i p) as Wl.
  pose proof (weight_sum_insert past_run (threads c) i p) as Wr.
  assert (Hins : forall q j p',
             <[i := q]> (threads c) !! j = Some p' ->
             p' = q \/ threads c !! j = Some p').
  { intros q j p' Hj. destruct (decide (i = j)) as [-> | Hne].
    - rewrite list_lookup_insert_eq in Hj by (by apply lookup_lt_Some in Hi).
      left. congruence.
    - rewrite list_lookup_insert_ne in Hj by done. by right. }
  unfold accounted, lookups, runs in *.
  destruct p; simpl in Hstep;
    repeat match type of Hstep with
           | context [if ?b then _ else _] => destruct b eqn:?
           | context [match ?x with _ => _ end] => destruct x eqn:?
           end;
    simplify_eq; simpl; rewrite ?length_insert;
    (split; [| done]);
    match goal with
    | |- context [<[i := ?q]> (threads c)] =>
        specialize (Wl q Hi); specialize (Wr q Hi); specialize (Hins q)
    end;
    simpl in Wl, Wr;
    rewrite ?filter_cons; repeat (case_decide; try done); simpl length;
    (split_and!; [lia | lia |]);
    intros j p' Hj Hp'; destruct (Hins j p' Hj) as [-> | Hold];
    try done; try (by eapply Hs);
    try (specialize (Hs _ _ Hold Hp'); congruence).
Qed.

Lemma exec_accounted k sched c c1 :
  accounted c -> exec k sched c = Some c1 ->
  accounted c1 /\ length (threads c1) = length (threads c).
Proof.
  revert c. induction sched as [|[i w] sched IH]; intros c Hc Hex.
  - simpl in Hex. by simplify_eq.
  - simpl in Hex. destruct (step k i w c) as [c0|] eqn:Hstep; [| done].
    destruct (step_accounted k i w c c0 Hc Hstep) as [Hc0 Hlen0].
    destruct (IH c0 Hc0 Hex) as [Hc1 Hlen1]. split; [done | congruence].
Qed.

Lemma past_lookup_le p : (past_lookup p <= 1)%nat.
Proof. destruct p; simpl; lia. Qed.

Lemma past_run_le p : (past_run p <= 1)%nat.
Proof. destruct p; simpl; lia. Qed.

(** X14: however [n] goroutines interleave in [ensureReady] on one tool,
    the path is resolved at most [n] times and the binary run at most [n]
    times in all, and once any of them has returned the tool is checked. *)
Theorem goroutines_check_at_most_once_each k sched t n c :
  exec k sched (spawn t n) = Some c ->
  length (threads c) = n
  /\ (lookups c <= n)%nat /\ (runs c <= n)%nat
  /\ (forall i r, threads c !! i = Some (Returned r) -> checked (tool c) = true).
Proof.
  intros Hex.
  assert (Hinit : accounted (spawn t n)).
  { unfold accounted, spawn, lookups, runs. simpl. split_and!; try lia.
    intros i p Hi Hp. apply lookup_replicate in Hi as [-> _]. done. }
  destruct (exec_accounted k sched (spawn t n) c Hinit Hex) as [(Hl & Hr & Hs) Hlen].
  simpl in Hlen. rewrite length_replicate in Hlen.
  pose proof (weight_sum_le past_lookup (threads c) past_lookup_le).
  pose proof (weight_sum_le past_run (threads c) past_run_le).
  split_and!; try lia. intros i r Hi. by apply (Hs i (Returned r)).
Qed.

End ToolMoreFacts.

Lemma first_check_outcome_witness :
  Tool.checked Tool.NewDefaultFFmpeg = false
  /\ Tool.version (@Tool.ensureReady demo_platform GoErrors.FFmpeg Scenarios.world_healthy
                     Tool.NewDefaultFFmpeg).1.2 <> "".
Proof.
  split; [reflexivity |].
  pose proof (@first_check_outcome demo_platform GoErrors.FFmpeg Scenarios.world_healthy
                Tool.NewDefaultFFmpeg eq_refl) as Hf.
  destruct (Tool.ensureReady GoErrors.FFmpeg Scenarios.world_healthy Tool.NewDefaultFFmpeg)
    as [[r t1] log] eqn:He.
  destruct Hf as (_ & _ & _ & _ & Hl). simpl in Hl. destruct Hl as (_ & _ & Hv & _).
  apply Hv. injection He as <- _ _. reflexivity.
Defined.

Lemma goroutines_check_at_most_once_each_witness :
  exists c,
    @Tool.exec demo_platform GoErrors.FFmpeg Scenarios.racing_schedule
      (Tool.spawn Tool.NewDefaultFFmpeg 2) = Some c
    /\ (Tool.runs c <= 2)%nat.
Proof.
  eexists. split; [reflexivity |].
  exact (proj1 (proj2 (proj2
    (@goroutines_check_at_most_once_each demo_platform GoErrors.FFmpeg
       Scenarios.racing_schedule Tool.NewDefaultFFmpeg 2 _ eq_refl)))).
Defined.

(** ** More on running ffmpeg *)

Section RunMoreFacts.
Import GoStrings GoErrors Progress Command Tool Run.
Context `{GoPlatform}.
Local Open Scope list_scope.

Lemma launched_dec env t : launched env t \/ ~ launched env t.
Proof.
  unfold launched.
  destruct ((ensureReady FFmpeg (env_world env) t).1.1), (env_stdout_pipe env),
    (env_stderr_pipe env), (env_start env); (by left) || (right; intros (? & ? & ? & ?); done).
Qed.

Lemma RunWithProgress_not_launched {S : Type} env t cmd (cb : option (sink S)) st m a :
  ~ launched env t ->
  let r := RunWithProgress env t cmd cb st m a in
  out_err r <> None /\ out_last r = zero /\ out_sink r = st /\ out_maps r = m
  /\ out_ctx r = None.
Proof.
  intros Hn. cbv zeta. unfold RunWithProgress, launched in *.
  destruct (ensureReady FFmpeg (env_world env) t) as [[[e|] t1] log]; [done |].
  destruct (launch_args cmd _ a) as [args a1].
  destruct (env_stdout_pipe env); [done |].
  destruct (env_stderr_pipe env); [done |].
  destruct (env_start env); [done |].
  exfalso. by apply Hn.
Qed.

(** X15: [RunWithProgress] returns a nil error exactly when the subprocess
    was started and [Wait] returned nil.  So a clean exit is a success even
    if the sink had asked to stop or the deadline had expired meanwhile, and
    every error of [Wait] is reported. *)
Theorem run_succeeds_iff_clean_exit {S : Type} env t cmd (cb : option (sink S)) st m a :
  out_err (RunWithProgress env t cmd cb st m a) = None
  <-> launched env t /\ env_wait env = None.
Proof.
  destruct (launched_dec env t) as [Hl | Hn].
  - destruct (RunWithProgress_launched env t cmd cb st m a Hl) as (_ & _ & ->).
    unfold report. split.
    + intros Hr. split; [done |]. destruct (env_wait env) as [werr|]; [| done].
      destruct (ctx_done _ _) as [[|]|]; try done; by destruct (is_ExitError werr).
    + by intros [_ ->].
  - destruct (RunWithProgress_not_launched env t cmd cb st m a Hn) as (Herr & _).
    split; [done | by intros [Hl _]].
Qed.

(** X16: if the subprocess is not started (the tool is not ready, a pipe
    cannot be made, or [Start] fails) the sink is never called, nothing is
    decoded, and the zero snapshot comes back with the error.  With no sink
    the zero snapshot comes back in every case, and stdout is not decoded. *)
Theorem no_launch_no_progress {S : Type} env t cmd (cb : option (sink S)) st m a :
  (~ launched env t ->
   let r := RunWithProgress env t cmd cb st m a in
   out_err r <> None /\ out_last r = zero /\ out_sink r = st /\ out_maps r = m)
  /\ (let r := Run env t cmd m a in out_last r = zero /\ out_maps r = m).
Proof.
  split.
  - intros Hn. destruct (RunWithProgress_not_launched env t cmd cb st m a Hn)
      as (He & Hlast & Hs & Hm & _). done.
  - unfold Run. destruct (launched_dec env t) as [Hl | Hn].
    + destruct (RunWithProgress_launched env t cmd None tt m a Hl) as (-> & _ & _).
      split; [done |]. unfold RunWithProgress, launched in *.
      destruct (ensureReady FFmpeg (env_world env) t) as [[[e|] t1] log];
        [by destruct Hl |].
      destruct (launch_args cmd _ a) as [args a1].
      destruct Hl as (_ & -> & -> & ->). done.
    + destruct (RunWithProgress_not_launched env t cmd None tt m a Hn)
        as (_ & Hlast & _ & Hm & _). done.
Qed.

Lemma ensureReady_keeps_Timeout k w t : Timeout (ensureReady k w t).1.2 = Timeout t.
Proof.
  unfold ensureReady. destruct (checked t); [done |].
  destruct (LookPath w _); [| done]. by destruct (run_err _).
Qed.

Lemma RunWithProgress_tool {S : Type} env t cmd (cb : option (sink S)) st m a :
  out_tool (RunWithProgress env t cmd cb st m a)
  = (ensureReady FFmpeg (env_world env) t).1.2.
Proof.
  unfold RunWithProgress.
  destruct (ensureReady FFmpeg (env_world env) t) as [[[e|] t1] log]; [done |].
  destruct (launch_args cmd _ a) as [args a1].
  destruct (env_stdout_pipe env); [done |].
  destruct (env_stderr_pipe env); [done |].
  by destruct (env_start env).
Qed.

(** X17: a failed run is reported as a timeout exactly when the run-scoped
    context ended by its deadline, and then whatever the error of [Wait]
    is, an exit error included; the message names the tool's configured
    timeout.  That is so when the deadline expired while stdout was read,
    or after the reader returned without the sink having asked to stop. *)
Theorem timeout_is_decided_by_the_context {S : Type} env t cmd
    (cb : option (sink S)) st m a werr :
  launched env t -> env_wait env = Some werr ->
  let r := RunWithProgress env t cmd cb st m a in
  (reported_as_timeout r <-> out_ctx r = Some DeadlineExceeded)
  /\ (out_ctx r = Some DeadlineExceeded ->
      out_err r = Some (TimedOut (Timeout t) (TrimSpace (env_stderr env))))
  /\ (env_ctx_early env = Some DeadlineExceeded -> out_ctx r = Some DeadlineExceeded)
  /\ (env_ctx_early env = None -> env_ctx_late env = Some DeadlineExceeded ->
      (forall f, cb = Some f -> ~ sink_aborted env f st m) ->
      out_ctx r = Some DeadlineExceeded).
Proof.
  intros Hl Hw r.
  destruct (RunWithProgress_launched env t cmd cb st m a Hl) as (_ & Hctx & Herr).
  fold r in Hctx, Herr.
  assert (Ht : Timeout (out_tool r) = Timeout t).
  { subst r. by rewrite RunWithProgress_tool, ensureReady_keeps_Timeout. }
  rewrite <- Hctx, Hw, Ht in Herr. unfold report in Herr.
  split_and!.
  - split.
    + intros (e & He & Hte). rewrite Herr in He.
      destruct (out_ctx r) as [[|]|]; [done | |];
        destruct (is_ExitError werr); by simplify_eq.
    + intros Hd. rewrite Hd in Herr. by eexists.
  - intros Hd. by rewrite Hd in Herr.
  - intros He. rewrite Hctx, He. simpl. by destruct (sc_cancelled _).
  - intros He Hlate Hna. rewrite Hctx, He, Hlate. simpl.
    destruct cb as [f|]; [| done].
    specialize (Hna f eq_refl). unfold sink_aborted in Hna.
    by destruct (sc_cancelled _).
Qed.

(** X18: a run does not change the command.  The builder's arguments are
    the same after the call, and the vector handed to the subprocess is
    those arguments followed, if there is a sink, by [-progress pipe:1
    -nostats]; so the same command can be run again and is launched with
    the same vector. *)
Theorem run_leaves_the_command_as_it_is {S : Type} env env2 t cmd
    (cb : option (sink S)) st m a :
  wf_slice a (args cmd) ->
  let r := RunWithProgress env t cmd cb st m a in
  let r2 := RunWithProgress env2 (out_tool r) cmd cb (out_sink r) (out_maps r)
              (out_arrays r) in
  wf_slice (out_arrays r) (args cmd)
  /\ elems (out_arrays r) (args cmd) = elems a (args cmd)
  /\ (forall argv, out_argv r = Some argv ->
        argv = elems a (args cmd)
               ++ (match cb with
                  | Some _ => ["-progress"; "pipe:1"; "-nostats"]
                  | None => []
                  end))
  /\ (forall argv argv2, out_argv r = Some argv -> out_argv r2 = Some argv2 ->
        argv2 = argv).
Proof.
  intros Hwf r r2.
  assert (Hone : forall (env0 : environment) t0 (st0 : S) m0 a0,
             wf_slice a0 (args cmd) ->
             let r0 := RunWithProgress env0 t0 cmd cb st0 m0 a0 in
             wf_slice (out_arrays r0) (args cmd)
             /\ elems (out_arrays r0) (args cmd) = elems a0 (args cmd)
             /\ (forall argv, out_argv r0 = Some argv ->
                   argv = elems a0 (args cmd)
                          ++ (match cb with
                  | Some _ => ["-progress"; "pipe:1"; "-nostats"]
                  | None => []
                  end))).
  { intros env0 t0 st0 m0 a0 Hwf0. cbv zeta. unfold RunWithProgress.
    destruct (ensureReady FFmpeg (env_world env0) t0) as [[[e|] t1] log]; [done |].
    pose proof (launch_args_spec cmd (bool_decide (is_Some cb)) a0 Hwf0) as Hla.
    destruct (launch_args cmd _ a0) as [argv a1].
    destruct Hla as (_ & Hargv & Hwfc & Hec & _).
    assert (Hflags : (if bool_decide (is_Some cb)
                      then ["-progress"; "pipe:1"; "-nostats"] else [])
                     = (match cb with
                  | Some _ => ["-progress"; "pipe:1"; "-nostats"]
                  | None => []
                  end))
      by (by destruct cb).
    rewrite Hflags in Hargv.
    destruct (env_stdout_pipe env0); [by split_and!; try done; intros ? [= <-] |].
    destruct (env_stderr_pipe env0); [by split_and!; try done; intros ? [= <-] |].
    destruct (env_start env0); by split_and!; try done; intros ? [= <-]. }
  destruct (Hone env t st m a Hwf) as (Hwf1 & He1 & Ha1).
  destruct (Hone env2 (out_tool r) (out_sink r) (out_maps r) (out_arrays r) Hwf1)
    as (_ & _ & Ha2).
  fold r in Hwf1, He1, Ha1. fold r2 in Ha2.
  split_and!; try done.
  intros argv argv2 Hr Hr2. rewrite (Ha1 argv Hr), (Ha2 argv2 Hr2). by rewrite He1.
Qed.

End RunMoreFacts.

Lemma no_launch_no_progress_witness :
  let env := Run.mkEnvironment Scenarios.world_missing None None None ["frame=1"] "" None None
               None in
  ~ @Run.launched demo_platform env Tool.NewDefaultFFmpeg
  /\ Run.out_sink (@Run.RunWithProgress demo_platform nat env Tool.NewDefaultFFmpeg
                     Scenarios.fresh_command.1
                     (Some (@Scenarios.stop_at_once demo_platform)) 0%nat []
                     Scenarios.fresh_command.2) = 0%nat.
Proof.
  intros env.
  assert (Hn : ~ @Run.launched demo_platform env Tool.NewDefaultFFmpeg).
  { intros [Hready _]. discriminate Hready. }
  split; [exact Hn |].
  destruct (@no_launch_no_progress demo_platform nat env Tool.NewDefaultFFmpeg
              Scenarios.fresh_command.1 (Some (@Scenarios.stop_at_once demo_platform))
              0%nat [] Scenarios.fresh_command.2) as [Hskip _].
  exact (proj1 (proj2 (proj2 (Hskip Hn)))).
Defined.

Lemma timeout_is_decided_by_the_context_witness :
  let env := Run.mkEnvironment Scenarios.world_healthy None None None ["frame=1"] "slow"
               (Some Run.DeadlineExceeded) None (Some (GoErrors.Foreign "signal: killed" true)) in
  @Run.launched demo_platform env Tool.NewDefaultFFmpeg
  /\ Run.env_wait env = Some (GoErrors.Foreign "signal: killed" true)
  /\ Run.out_err (@Run.RunWithProgress demo_platform nat env Tool.NewDefaultFFmpeg
                    Scenarios.fresh_command.1
                    (Some (@Scenarios.stop_at_once demo_platform)) 0%nat []
                    Scenarios.fresh_command.2)
     = Some (GoErrors.TimedOut 0 "slow").
Proof.
  intros env.
  assert (Hl : @Run.launched demo_platform env Tool.NewDefaultFFmpeg) by done.
  assert (Hw : Run.env_wait env = Some (GoErrors.Foreign "signal: killed" true))
    by reflexivity.
  split; [exact Hl |]. split; [exact Hw |].
  destruct (@timeout_is_decided_by_the_context demo_platform nat env Tool.NewDefaultFFmpeg
              Scenarios.fresh_command.1 (Some (@Scenarios.stop_at_once demo_platform))
              0%nat [] Scenarios.fresh_command.2 _ Hl Hw) as (_ & Hto & Hearly & _).
  exact (Hto (Hearly eq_refl)).
Defined.

Lemma run_leaves_the_command_as_it_is_witness :
  Command.wf_slice Scenarios.fresh_command.2 (Command.args Scenarios.fresh_command.1)
  /\ Run.out_argv (@Run.RunWithProgress demo_platform nat Scenarios.aborted_run
                     Tool.NewDefaultFFmpeg Scenarios.fresh_command.1
                     (Some (@Scenarios.stop_at_once demo_platform)) 0%nat []
                     Scenarios.fresh_command.2)
     = Some ["-y"; "-progress"; "pipe:1"; "-nostats"].
Proof.
  assert (Hwf : Command.wf_slice Scenarios.fresh_command.2
                  (Command.args Scenarios.fresh_command.1)) by (cbv; lia).
  split; [exact Hwf |].
  destruct (@run_leaves_the_command_as_it_is demo_platform nat Scenarios.aborted_run
              Scenarios.aborted_run Tool.NewDefaultFFmpeg Scenarios.fresh_command.1
              (Some (@Scenarios.stop_at_once demo_platform)) 0%nat []
              Scenarios.fresh_command.2 Hwf) as (_ & _ & Hargv & _).
  destruct (Run.out_argv _) as [argv|] eqn:Ha; [| discriminate Ha].
  rewrite (Hargv argv eq_refl). reflexivity.
Defined.

(** ** Probing *)

Section ProbeFacts.
Import GoStrings GoErrors Tool Probe.
Context `{GoPlatform}.
Context {FFProbeJSON : Type} (Unmarshal : string -> error + FFProbeJSON).
Local Open Scope list_scope.

Lemma Probe_tool pw input t :
  (Probe Unmarshal pw input t).1.2 = (ensureReady FFprobe (pw_world pw) t).1.2.
Proof.
  unfold Probe. destruct (ensureReady FFprobe (pw_world pw) t) as [[[e|] t1] log]; [done |].
  destruct (out_error _) as [err|].
  - destruct (is_ExitError err); [done |]. by destruct (out_deadline _).
  - by destruct (Unmarshal _).
Qed.

Lemma Probe_document_or_error pw input t :
  is_Some (Probe Unmarshal pw input t).1.1.1 <-> (Probe Unmarshal pw input t).1.1.2 = None.
Proof.
  unfold Probe. destruct (ensureReady FFprobe (pw_world pw) t) as [[[e|] t1] log].
  { simpl. split; [by intros [x Hx] | done]. }
  destruct (out_error _) as [err|].
  - destruct (is_ExitError err); [| destruct (out_deadline _)]; simpl;
      (split; [by intros [x Hx] | done]).
  - destruct (Unmarshal _) as [perr | parsed]; simpl.
    + split; [by intros [x Hx] | done].
    + split; [done | by eexists].
Qed.

Lemma Probe_not_ready pw input t e :
  (ensureReady FFprobe (pw_world pw) t).1.1 = Some e ->
  (Probe Unmarshal pw input t).1.1.2 = Some (NotReady e).
Proof.
  unfold Probe. destruct (ensureReady FFprobe (pw_world pw) t) as [[[e0|] t1] log]; [| done].
  by intros [= <-].
Qed.

(** X19: [Probe] returns a document or an error, never both and never
    neither.  On a tool that is not ready it returns the readiness error
    and does not run ffprobe; otherwise it runs the resolved binary once,
    with the input path as the last argument and a positive deadline (the
    tool's timeout, fifteen seconds if that is not positive).  A timeout is
    reported only when the error of the run is no exit error: a run that
    ends at the deadline with an exit error is reported as failed. *)
Theorem Probe_outcome pw input t :
  let '((info, err), t1, calls) := Probe Unmarshal pw input t in
  let ready := ensureReady FFprobe (pw_world pw) t in
  let d := if Timeout t <=? 0 then 15 * second else Timeout t in
  (is_Some info <-> err = None)
  /\ (forall e, ready.1.1 = Some e ->
        err = Some (NotReady e) /\ calls = Check <$> ready.2)
  /\ (ready.1.1 = None ->
        calls = (Check <$> ready.2) ++ [RunProbe (resolvedPath t1) (probe_args input) d]
        /\ 0 < d /\ last (probe_args input) = Some input)
  /\ (forall d', err = Some (ProbeTimedOut d') ->
        d' = d
        /\ exists e, out_error (pw_output pw (resolvedPath t1) (probe_args input) d) = Some e
                     /\ is_ExitError e = false).
Proof.
  unfold Probe. pose proof (ensureReady_keeps_Timeout FFprobe (pw_world pw) t) as Ht.
  destruct (ensureReady FFprobe (pw_world pw) t) as [[[e|] t1] log]; simpl in Ht.
  { simpl. split_and!; [split; [by intros [x Hx] | done] | | done | done].
    by intros e0 [= <-]. }
  rewrite Ht.
  assert (Hd : 0 < (if Timeout t <=? 0 then 15 * second else Timeout t)).
  { unfold second. destruct (Z.leb_spec (Timeout t) 0); lia. }
  assert (Hlast : last (probe_args input) = Some input) by done.
  destruct (out_error _) as [err|] eqn:Ho.
  - destruct (is_ExitError err) eqn:Hexit; [| destruct (out_deadline _)]; simpl;
      (split_and!; [split; [by intros [x Hx] | done] | done | by intros _ |]);
      [done | | done].
    intros d' [= <-]. split; [done |]. by exists err.
  - destruct (Unmarshal _) as [perr | parsed]; simpl;
      (split_and!; [| done | by intros _ | done]).
    + split; [by intros [x Hx] | done].
    + split; [done | by eexists].
Qed.

(** X20: [ProbeSafe] returns the document and the error of [Probe] and adds
    the version: the cached one whenever the tool is ready, also when the
    probe itself failed, and the empty string when it is not.  The call of
    [Version] never reaches the system, whatever the system would answer
    by then. *)
Theorem ProbeSafe_adds_the_cached_version pw w input t :
  let '((info, ver, err), t2, calls) := ProbeSafe Unmarshal pw w input t in
  let '((info', err'), t1, calls') := Probe Unmarshal pw input t in
  info = info' /\ err = err' /\ t2 = t1 /\ calls = calls'
  /\ match checkErr t1 with
     | None => ver = version t1
     | Some e => ver = "" /\ err = Some (NotReady e)
     end.
Proof.
  unfold ProbeSafe. pose proof (Probe_tool pw input t) as Ht.
  pose proof (ensureReady_checks FFprobe (pw_world pw) t) as Hc.
  pose proof (Probe_document_or_error pw input t) as Hiff.
  pose proof (Probe_not_ready pw input t) as Hnot.
  assert (Hres : (ensureReady FFprobe (pw_world pw) t).1.1
                 = checkErr (ensureReady FFprobe (pw_world pw) t).1.2).
  { unfold ensureReady. destruct (checked t); [done |].
    destruct (LookPath _ _); [| done]. by destruct (run_err _). }
  destruct (Probe Unmarshal pw input t) as [[[info err] t1] calls1].
  simpl in Ht, Hiff, Hnot. subst t1.
  unfold Version. rewrite (ensureReady_checked FFprobe w _ Hc), <- Hres.
  destruct ((ensureReady FFprobe (pw_world pw) t).1.1) as [e|] eqn:Hr.
  - rewrite (Hnot e eq_refl) in Hiff |- *. simpl. rewrite app_nil_r.
    assert (info = None) as ->.
    { destruct info as [x|]; [| done]. assert (Hx : is_Some (Some x)) by eauto. by apply Hiff in Hx. }
    done.
  - simpl. rewrite app_nil_r. destruct err as [e|]; [| done].
    assert (info = None) as ->; [| done].
    destruct info as [x|]; [| done]. assert (Hx : is_Some (Some x)) by eauto. by apply Hiff in Hx.
Qed.

End ProbeFacts.

(** ** The demo server: event framing and file names *)

Section DemoTextFacts.
Import GoStrings Demo.

Lemma has_byte_append c s t : has_byte c (s +:+ t) = has_byte c s || has_byte c t.
Proof.
  induction s as [|a s IH]; [done |]. rewrite append_cons. simpl.
  by rewrite IH, orb_assoc.
Qed.

Lemma count_byte_append c s t :
  count_byte c (s +:+ t) = (count_byte c s + count_byte c t)%nat.
Proof.
  induction s as [|a s IH]; [done |]. rewrite append_cons. simpl. rewrite IH. lia.
Qed.

Lemma count_byte_none c s : has_byte c s = false -> count_byte c s = 0%nat.
Proof.
  induction s as [|a s IH]; [done |]. simpl.
  destruct (Ascii.eqb a c); [done |]. simpl. apply IH.
Qed.

(** Replacing every [old] leaves a byte out if the string and the
    replacement have none of it, or if it is [old] itself and the
    replacement has none. *)
Lemma ReplaceByte_without c s old new :
  has_byte c new = false ->
  has_byte c s = false \/ c = old ->
  has_byte c (ReplaceByte s old new) = false.
Proof.
  intros Hnew Hs. induction s as [|a s IH]; [done |]. simpl.
  destruct (Ascii.eqb_spec a old) as [-> | Hne].
  - rewrite has_byte_append, Hnew. simpl. apply IH.
    destruct Hs as [Hs | ->]; [| by right]. left. simpl in Hs.
    by apply orb_false_elim in Hs as [_ Hs].
  - simpl. destruct Hs as [Hs | ->].
    + simpl in Hs. apply orb_false_elim in Hs as [Ha Hs]. rewrite Ha. simpl.
      apply IH. by left.
    + destruct (Ascii.eqb_spec a old) as [-> | _]; [done |]. simpl. apply IH. by right.
Qed.

Lemma ReplaceByte_absent s old new :
  has_byte old s = false -> ReplaceByte s old new = s.
Proof.
  induction s as [|a s IH]; [done |]. simpl. intros Hs.
  apply orb_false_elim in Hs as [Ha Hs]. rewrite Ha. by rewrite IH.
Qed.

(** X21: the payload that [writeSSE] writes holds no line feed and no
    carriage return, and is the data itself if that held none.  With an
    event name that has no line feed, what is written has exactly three
    line feeds: the end of the event line, and the two that end the data
    line and the event. *)
Theorem sse_payload_is_one_line event data :
  has_byte LF (sse_data data) = false
  /\ has_byte CR (sse_data data) = false
  /\ (has_byte LF data = false -> has_byte CR data = false -> sse_data data = data)
  /\ count_byte LF (writeSSE event data) = (3 + count_byte LF event)%nat.
Proof.
  assert (Hlf : has_byte LF (sse_data data) = false).
  { unfold sse_data. apply ReplaceByte_without; [done | by right]. }
  split; [done |]. split; [| split].
  - unfold sse_data. apply ReplaceByte_without; [done |]. left.
    apply ReplaceByte_without; [done | by right].
  - intros Hl Hc. unfold sse_data.
    rewrite (ReplaceByte_absent data CR "" Hc). by apply ReplaceByte_absent.
  - unfold writeSSE. rewrite !count_byte_append, (count_byte_none LF _ Hlf). simpl. lia.
Qed.

(** *** What [TrimSpace] keeps is a piece of the string *)






End DemoTextFacts.

(** ** The demo server: the subscribers of a job *)

Section HubFacts.
Import Demo.
Local Open Scope list_scope.
Local Open Scope nat_scope.

Lemma offer_bounded ev c :
  length (buffered c) <= capacity -> length (buffered (offer ev c)) <= capacity.
Proof.
  intros Hc. unfold offer. destruct (Nat.ltb_spec (length (buffered c)) capacity); [| done].
  simpl. rewrite length_app. simpl. lia.
Qed.

Lemma offer_closed ev c : closed (offer ev c) = closed c.
Proof. unfold offer. by destruct (_ <? _). Qed.

(** On a hub whose subscribed channels are open, [broadcast] does not
    panic: it offers the event to the subscribed channels and leaves the
    others, and the set of subscribers, as they are. *)
Lemma broadcast_ok ev s :
  hub_ok s ->
  exists s1, broadcast ev s = Some s1
    /\ hub_ok s1 /\ subs s1 = subs s
    /\ forall ch, chans s1 !! ch
                  = (fun c => if bool_decide (ch ∈ subscribers s) then offer ev c else c)
                    <$> chans s !! ch.
Proof.
  intros [Hopen Hcap]. unfold broadcast.
  destruct (existsb _ _) eqn:Hex.
  { apply existsb_exists in Hex as ([i c] & Hin & Hhit). simpl in Hhit.
    apply list_elem_of_In, elem_of_lookup_imap in Hin as (j & c' & Heq & Hj).
    injection Heq as -> ->. apply andb_prop in Hhit as [Hm Hcl].
    apply bool_decide_eq_true in Hm. destruct (Hopen j Hm) as (c0 & Hc0 & Hop).
    congruence. }
  eexists. split; [done |].
  assert (Hlook : forall ch,
             imap (fun i c => if bool_decide (i ∈ subscribers s) then offer ev c else c)
               (chans s) !! ch
             = (fun c => if bool_decide (ch ∈ subscribers s) then offer ev c else c)
               <$> chans s !! ch)
    by (intros ch; apply list_lookup_imap).
  split; [| by split]. split; simpl.
  - intros ch Hch. unfold subscribers in *. simpl in *.
    destruct (Hopen ch Hch) as (c & Hc & Hop). rewrite Hlook, Hc. simpl.
    rewrite bool_decide_eq_true_2 by done. eexists. split; [done |].
    by rewrite offer_closed.
  - intros ch c Hc. rewrite Hlook in Hc.
    destruct (chans s !! ch) as [c0|] eqn:Hc0; [| done]. simpl in Hc. simplify_eq.
    specialize (Hcap ch c0 Hc0). case_bool_decide; [by apply offer_bounded | done].
Qed.

Lemma new_job_ok : hub_ok new_job.
Proof.
  split.
  - intros ch Hch. unfold subscribers in Hch. simpl in Hch. set_solver.
  - intros ch c Hc. done.
Qed.

Lemma subscribe_ok s :
  hub_ok s ->
  let '(ch, s1) := subscribe s in
  hub_ok s1 /\ (ch ∈ subscribers s1) /\ (ch ∉ subscribers s)
  /\ chans s1 !! ch = Some (mkChannel [] false)
  /\ subscribers s1 = {[ch]} ∪ subscribers s
  /\ forall i, i <> ch -> chans s1 !! i = chans s !! i.
Proof.
  intros [Hopen Hcap]. unfold subscribe.
  assert (Hnew : (chans s ++ [mkChannel [] false]) !! length (chans s)
                 = Some (mkChannel [] false)).
  { rewrite lookup_app_r, Nat.sub_diag by lia. done. }
  assert (Hold : forall i, i <> length (chans s) ->
                           (chans s ++ [mkChannel [] false]) !! i = chans s !! i).
  { intros i Hi. destruct (decide (i < length (chans s))) as [Hlt | Hge].
    - by apply lookup_app_l.
    - rewrite lookup_ge_None_2 by (rewrite length_app; simpl; lia).
      symmetry. apply lookup_ge_None_2. lia. }
  assert (Hfresh : length (chans s) ∉ subscribers s).
  { intros Hin. destruct (Hopen _ Hin) as (c & Hc & _).
    apply lookup_lt_Some in Hc. lia. }
  split; [| split; [unfold subscribers; simpl; set_solver | done]].
  split; simpl.
  - intros ch Hch. unfold subscribers in Hch. simpl in Hch.
    apply elem_of_union in Hch as [Hch | Hch].
    + apply elem_of_singleton in Hch as ->. eexists. by split.
    + destruct (Hopen ch Hch) as (c & Hc & Hop). exists c. split; [| done].
      rewrite Hold; [done |]. intros ->. by apply Hfresh.
  - intros ch c Hc. destruct (decide (ch = length (chans s))) as [-> | Hne].
    + rewrite Hnew in Hc. simplify_eq. simpl. unfold capacity. lia.
    + rewrite Hold in Hc by done. by eapply Hcap.
Qed.

Lemma unsubscribe_ok ch s :
  hub_ok s -> ch ∈ subscribers s ->
  exists s1, unsubscribe ch s = Some s1
    /\ hub_ok s1 /\ subscribers s1 = subscribers s ∖ {[ch]}
    /\ (exists c, chans s1 !! ch = Some c /\ closed c = true)
    /\ forall i, i <> ch -> chans s1 !! i = chans s !! i.
Proof.
  intros [Hopen Hcap] Hch. unfold unsubscribe.
  destruct (Hopen ch Hch) as (c & Hc & Hop). rewrite Hc, Hop.
  eexists. split; [done |].
  assert (Hsubs : subscribers (mkHub (<[ch := mkChannel (buffered c) true]> (chans s))
                                 ((fun m : gset nat => m ∖ {[ch]}) <$> subs s))
                  = subscribers s ∖ {[ch]}).
  { unfold subscribers. simpl. destruct (subs s) as [m|]; simpl; [done |].
    apply set_eq. intros x. rewrite elem_of_difference.
    split; [intros Hx | intros [Hx _]]; by apply elem_of_empty in Hx. }
  split; [| split; [done | split]].
  - split.
    + intros i Hi. rewrite Hsubs in Hi. apply elem_of_difference in Hi as [Hi Hne].
      destruct (Hopen i Hi) as (c' & Hc' & Hop'). exists c'. split; [| done]. simpl.
      rewrite list_lookup_insert_ne; [done |]. intros ->. apply Hne.
      by apply elem_of_singleton.
    + intros i c' Hc'. simpl in Hc'. destruct (decide (ch = i)) as [<- | Hne].
      * rewrite list_lookup_insert_eq in Hc' by (by apply lookup_lt_Some in Hc).
        injection Hc' as <-. simpl. exact (Hcap ch c Hc).
      * rewrite list_lookup_insert_ne in Hc' by done. exact (Hcap i c' Hc').
  - simpl. exists (mkChannel (buffered c) true). split; [| done].
    by rewrite list_lookup_insert_eq by (by apply lookup_lt_Some in Hc).
  - intros i Hne. simpl. by rewrite list_lookup_insert_ne.
Qed.

Lemma receive_ok ch s ev s1 :
  hub_ok s -> receive ch s = Some (ev, s1) ->
  hub_ok s1 /\ subs s1 = subs s
  /\ (exists c, chans s !! ch = Some c /\ exists rest, buffered c = ev :: rest
                /\ chans s1 !! ch = Some (mkChannel rest (closed c)))
  /\ forall i, i <> ch -> chans s1 !! i = chans s !! i.
Proof.
  intros [Hopen Hcap] Hr. unfold receive in Hr.
  destruct (chans s !! ch) as [[[|e rest] cl]|] eqn:Hc; try done. simplify_eq.
  assert (Hlt : ch < length (chans s)) by (by apply lookup_lt_Some in Hc).
  split; [| split; [done | split]].
  - split; simpl.
    + intros i Hi. unfold subscribers in *. simpl in *.
      destruct (Hopen i Hi) as (c & Hci & Hop).
      destruct (decide (ch = i)) as [<- | Hne].
      * rewrite list_lookup_insert_eq by done. simplify_eq. eexists. by split.
      * rewrite list_lookup_insert_ne by done. by exists c.
    + intros i c Hci. destruct (decide (ch = i)) as [<- | Hne].
      * rewrite list_lookup_insert_eq in Hci by done. simplify_eq. simpl.
        specialize (Hcap ch _ Hc). simpl in Hcap. lia.
      * rewrite list_lookup_insert_ne in Hci by done. by eapply Hcap.
  - eexists. split; [done |]. exists rest. split; [done |]. simpl.
    by rewrite list_lookup_insert_eq.
  - intros i Hne. simpl. by rewrite list_lookup_insert_ne.
Qed.

(** X23: the subscribers of a job.  From a job without subscribers, and
    through every [subscribe], every [unsubscribe] of a subscribed
    channel, every [broadcast] and every receive, each subscribed channel
    is open and no channel holds more than sixteen events.  So [broadcast]
    never sends on a closed channel, and [unsubscribe] never closes one
    twice: neither panics.  [subscribe] returns a new, empty, open channel
    and [unsubscribe] takes its channel out of the set before closing it. *)
Theorem hub_stays_consistent s ev :
  hub_ok new_job
  /\ (hub_ok s ->
      (let '(ch, s1) := subscribe s in
       hub_ok s1 /\ (ch ∉ subscribers s) /\ subscribers s1 = {[ch]} ∪ subscribers s
       /\ chans s1 !! ch = Some (mkChannel [] false))
      /\ (forall ch, ch ∈ subscribers s ->
            exists s1, unsubscribe ch s = Some s1 /\ hub_ok s1
                       /\ subscribers s1 = subscribers s ∖ {[ch]})
      /\ (exists s1, broadcast ev s = Some s1 /\ hub_ok s1
                     /\ subscribers s1 = subscribers s)
      /\ (forall ch got s1, receive ch s = Some (got, s1) ->
            hub_ok s1 /\ subscribers s1 = subscribers s)).
Proof.
  split; [apply new_job_ok |]. intros Hok. split; [| split; [| split]].
  - pose proof (subscribe_ok s Hok) as Hs. destruct (subscribe s) as [ch s1]. tauto.
  - intros ch Hch. destruct (unsubscribe_ok ch s Hok Hch) as (s1 & Hu & Hok1 & Hs1 & _).
    by exists s1.
  - destruct (broadcast_ok ev s Hok) as (s1 & Hb & Hok1 & Hs1 & _).
    exists s1. unfold subscribers. by rewrite Hs1.
  - intros ch got s1 Hr. destruct (receive_ok ch s got s1 Hok Hr) as (Hok1 & Hs1 & _).
    unfold subscribers. by rewrite Hs1.
Qed.

Lemma broadcast_all_ok evs s :
  hub_ok s ->
  exists s1, broadcast_all evs s = Some s1 /\ hub_ok s1 /\ subs s1 = subs s
    /\ (forall ch c, ch ∈ subscribers s -> chans s !! ch = Some c ->
          chans s1 !! ch = Some (mkChannel (take capacity (buffered c ++ evs)) (closed c)))
    /\ (forall ch, ch ∉ subscribers s -> chans s1 !! ch = chans s !! ch).
Proof.
  revert s. induction evs as [|ev evs IH]; intros s Hok.
  - exists s. split; [done |]. split; [done |]. split; [done |]. split; [| done].
    intros ch c Hch Hc.
    destruct Hok as [_ Hcap]. specialize (Hcap ch c Hc).
    rewrite app_nil_r, take_ge by done. by destruct c.
  - simpl. destruct (broadcast_ok ev s Hok) as (s0 & -> & Hok0 & Hs0 & Hl0).
    destruct (IH s0 Hok0) as (s1 & Hb & Hok1 & Hs1 & Hin & Hout).
    assert (Hsame : subscribers s0 = subscribers s) by (unfold subscribers; by rewrite Hs0).
    exists s1. split; [done |]. split; [done |]. split; [congruence |]. split.
    + intros ch c Hch Hc. specialize (Hl0 ch). rewrite Hc in Hl0. simpl in Hl0.
      rewrite bool_decide_eq_true_2 in Hl0 by done.
      rewrite (Hin ch (offer ev c) ltac:(by rewrite Hsame) Hl0), offer_closed.
      f_equal. f_equal. destruct Hok as [_ Hcap]. specialize (Hcap ch c Hc).
      unfold offer. destruct (Nat.ltb_spec (length (buffered c)) capacity) as [Hlt | Hge].
      * simpl. by rewrite <- app_assoc.
      * rewrite !take_app_le by lia. done.
    + intros ch Hch. rewrite Hout by (by rewrite Hsame). rewrite Hl0.
      rewrite bool_decide_eq_false_2 by done. by destruct (chans s !! ch).
Qed.

Lemma broadcast_and_receive_ok evs ch s c :
  hub_ok s -> ch ∈ subscribers s -> chans s !! ch = Some c -> buffered c = [] ->
  exists s1, broadcast_and_receive evs ch s = Some (evs, s1)
    /\ hub_ok s1 /\ subs s1 = subs s
    /\ chans s1 !! ch = Some c
    /\ (forall ch2 c2, ch2 <> ch -> ch2 ∈ subscribers s -> chans s !! ch2 = Some c2 ->
          chans s1 !! ch2
          = Some (mkChannel (take capacity (buffered c2 ++ evs)) (closed c2))).
Proof.
  revert s. induction evs as [|ev evs IH]; intros s Hok Hch Hc Hempty.
  - exists s. split; [done |]. split; [done |]. split; [done |]. split; [done |].
    intros ch2 c2 _ _ Hc2.
    destruct Hok as [_ Hcap]. specialize (Hcap ch2 c2 Hc2).
    rewrite app_nil_r, take_ge by done. by destruct c2.
  - simpl. destruct (broadcast_ok ev s Hok) as (s0 & -> & Hok0 & Hs0 & Hl0).
    assert (Hsame : subscribers s0 = subscribers s) by (unfold subscribers; by rewrite Hs0).
    assert (Hc0 : chans s0 !! ch = Some (mkChannel [ev] (closed c))).
    { rewrite Hl0, Hc. simpl. rewrite bool_decide_eq_true_2 by done.
      unfold offer. rewrite Hempty. simpl. done. }
    assert (Hr : receive ch s0
                 = Some (ev, mkHub (<[ch := mkChannel [] (closed c)]> (chans s0)) (subs s0))).
    { unfold receive. by rewrite Hc0. }
    rewrite Hr. destruct (receive_ok ch s0 ev _ Hok0 Hr) as (Hok2 & Hs2 & _ & Hother).
    set (s2 := mkHub (<[ch := mkChannel [] (closed c)]> (chans s0)) (subs s0)) in *.
    assert (Hc2 : chans s2 !! ch = Some c).
    { subst s2. simpl. rewrite list_lookup_insert_eq by (by apply lookup_lt_Some in Hc0).
      destruct c. simpl in *. by subst. }
    assert (Hsame2 : subscribers s2 = subscribers s) by (unfold subscribers; by rewrite Hs2, Hs0).
    destruct (IH s2 Hok2 ltac:(by rewrite Hsame2) Hc2 Hempty)
      as (s1 & -> & Hok1 & Hs1 & Hc1 & Hslow).
    exists s1. split; [done |]. split; [done |]. split; [congruence |]. split; [done |].
    intros ch2 c2 Hne Hch2 Hcc2.
    assert (Hc22 : chans s2 !! ch2 = Some (offer ev c2)).
    { rewrite Hother by done. rewrite Hl0, Hcc2. simpl.
      by rewrite bool_decide_eq_true_2. }
    rewrite (Hslow ch2 (offer ev c2) Hne ltac:(by rewrite Hsame2) Hc22), offer_closed.
    f_equal. f_equal. destruct Hok as [_ Hcap]. specialize (Hcap ch2 c2 Hcc2).
    unfold offer. destruct (Nat.ltb_spec (length (buffered c2)) capacity) as [Hlt | Hge].
    + simpl. by rewrite <- app_assoc.
    + rewrite !take_app_le by lia. done.
Qed.

(** X24: slow and fast subscribers.  Events broadcast to a subscriber that
    does not receive fill its buffer up to sixteen, in order, and the rest
    are dropped: the buffer ends as the first sixteen of what it held
    followed by the events.  A subscriber that receives after every
    broadcast gets every event, in order, however many there are, also
    while another subscriber's buffer is full; and the broadcasts never
    block or fail. *)
Theorem slow_subscribers_lose_events_fast_ones_do_not evs s fast slow cf cs :
  hub_ok s -> fast ∈ subscribers s -> slow ∈ subscribers s -> fast <> slow ->
  chans s !! fast = Some cf -> buffered cf = [] ->
  chans s !! slow = Some cs ->
  (exists s1, broadcast_all evs s = Some s1
     /\ chans s1 !! slow
        = Some (mkChannel (take capacity (buffered cs ++ evs)) (closed cs)))
  /\ (exists s1, broadcast_and_receive evs fast s = Some (evs, s1)
        /\ chans s1 !! slow
           = Some (mkChannel (take capacity (buffered cs ++ evs)) (closed cs))
        /\ chans s1 !! fast = Some cf).
Proof.
  intros Hok Hf Hs Hne Hcf Hempty Hcs. split.
  - destruct (broadcast_all_ok evs s Hok) as (s1 & Hb & _ & _ & Hin & _).
    exists s1. split; [done |]. by apply Hin.
  - destruct (broadcast_and_receive_ok evs fast s cf Hok Hf Hcf Hempty)
      as (s1 & Hb & _ & _ & Hfast & Hslow).
    exists s1. split; [done |]. split; [| done]. apply Hslow; [congruence | done | done].
Qed.

End HubFacts.

Lemma hub_stays_consistent_witness :
  Demo.hub_ok (Demo.subscribe Demo.new_job).2
  /\ exists s1, Demo.broadcast (Demo.mkEvent "status" "running")
                  (Demo.subscribe Demo.new_job).2 = Some s1.
Proof.
  destruct (hub_stays_consistent Demo.new_job (Demo.mkEvent "status" "running"))
    as [Hnew Hstep].
  destruct (Hstep Hnew) as (Hsub & _).
  assert (Hok : Demo.hub_ok (Demo.subscribe Demo.new_job).2).
  { destruct (Demo.subscribe Demo.new_job) as [ch s1]. exact (proj1 Hsub). }
  split; [exact Hok |].
  destruct (hub_stays_consistent (Demo.subscribe Demo.new_job).2
              (Demo.mkEvent "status" "running")) as [_ Hstep2].
  destruct (Hstep2 Hok) as (_ & _ & (s1 & Hb & _) & _). exists s1. exact Hb.
Defined.

Lemma slow_subscribers_lose_events_fast_ones_do_not_witness :
  let s := (Demo.subscribe (Demo.subscribe Demo.new_job).2).2 in
  let evs := replicate 20 (Demo.mkEvent "progress" "x") in
  Demo.hub_ok s
  /\ exists s1, Demo.broadcast_and_receive evs 0%nat s = Some (evs, s1)
                /\ (length ∘ Demo.buffered) <$> Demo.chans s1 !! 1%nat = Some 16%nat.
Proof.
  intros s evs.
  assert (Hok : Demo.hub_ok s).
  { pose proof (subscribe_ok Demo.new_job new_job_ok) as Hsub.
    assert (Hok1 : Demo.hub_ok (Demo.subscribe Demo.new_job).2)
      by (destruct (Demo.subscribe Demo.new_job); exact (proj1 Hsub)).
    pose proof (subscribe_ok _ Hok1) as Hsub2. subst s.
    destruct (Demo.subscribe (Demo.subscribe Demo.new_job).2). exact (proj1 Hsub2). }
  split; [exact Hok |].
  destruct (slow_subscribers_lose_events_fast_ones_do_not evs s 0%nat 1%nat
              (Demo.mkChannel [] false) (Demo.mkChannel [] false) Hok
              ltac:(vm_compute; set_solver) ltac:(vm_compute; set_solver)
              ltac:(discriminate) eq_refl eq_refl eq_refl)
    as [_ (s1 & Hb & Hslow & _)].
  exists s1. split; [exact Hb |]. rewrite Hslow. reflexivity.
Defined.
